(** * Telemetry server: store, migrations, simulator and query handlers

    A shallow embedding of the Python sources under [server/]:
    - [models.py]    the response records;
    - [db.py]        [apply_migrations];
    - [seed.py]      [seed];
    - [simulator.py] [TelemetrySimulator] ([start], [stop], [is_running],
                     [_run_loop], [_value_for]);
    - [app.py]       the handlers [get_machines], [get_metrics],
                     [get_latest], [get_history] and [simulate_*].

    SQL tables are lists of rows, timestamps are [Z] (bound by sqlite3 as
    signed 64-bit integers), measured values are binary64 floats, text is
    [string].  What the sources leave to the database, the order of a
    [SELECT] without [ORDER BY] and the way [latest_readings] follows
    [readings], is a parameter, see [engine]. *)

From Stdlib Require Import List String Ascii ZArith Lia Bool.
From Stdlib Require Import Permutation Sorted Orders Mergesort OrderedTypeEx.
From Stdlib Require Import PrimFloat.
Import ListNotations.

Set Warnings "-inexact-float".
Local Open Scope string_scope.
Local Open Scope Z_scope.
Local Open Scope list_scope.

(* ================================================================= *)
(** ** models.py *)

Module Machine.
Record t := mk
    { machine_id : string; name : string;
      location : option string; status : string }.
End Machine.

Module Metric.
Record t := mk
    { metric_key : string; display_name : string; unit : string }.
End Metric.

Module LatestReading.
Record t := mk
    { machine_id : string; metric_key : string; ts_ms : Z; value : float }.
End LatestReading.

Module ReadingPoint.
Record t := mk { ts_ms : Z; value : float }.
End ReadingPoint.

(** A row of the [readings] table (and of [latest_readings], which has the
    same four columns); the simulator builds these as 4-tuples. *)
Module Reading.
Record t := mk
  { machine_id : string; metric_key : string; ts_ms : Z; value : float }.

Definition key (r : t) : string * string * Z :=
  (machine_id r, metric_key r, ts_ms r).
End Reading.

(* ================================================================= *)
(** ** Tables with a uniqueness constraint *)

Section Table.
Context {A K : Type}.
Variable key : A -> K.
Variable key_eqb : K -> K -> bool.

(** [SELECT * FROM tbl WHERE key = k]: the first row carrying the key. *)
Definition lookup (k : K) (tbl : list A) : option A :=
  find (fun x => key_eqb (key x) k) tbl.

(** [INSERT OR IGNORE INTO tbl VALUES r] under a unique constraint on
    [key]: a row whose key is already present is skipped, any other row is
    appended. *)
Definition insert_or_ignore (r : A) (tbl : list A) : list A :=
  if existsb (fun x => key_eqb (key x) (key r)) tbl then tbl
  else tbl ++ [r].

(** [executemany] runs the statement once per row, in order. *)
Definition executemany (rows : list A) (tbl : list A) : list A :=
  fold_left (fun acc r => insert_or_ignore r acc) rows tbl.

(** [r] is in [rows] with no row of its key before it. *)
Definition first_of_its_key (r : A) (rows : list A) : Prop :=
  exists pre post, rows = pre ++ r :: post /\ ~ In (key r) (map key pre).
End Table.

Definition reading_key_eqb (a b : string * string * Z) : bool :=
  let '(m1, k1, t1) := a in
  let '(m2, k2, t2) := b in
  String.eqb m1 m2 && String.eqb k1 k2 && Z.eqb t1 t2.

(** [SELECT * FROM readings WHERE (machine_id, metric_key, ts_ms) = k] *)
Definition lookup_reading (k : string * string * Z) (tbl : list Reading.t)
    : option Reading.t :=
  lookup Reading.key reading_key_eqb k tbl.

(* ================================================================= *)
(** ** The store *)

(** Modelled from the spec: the migration scripts ([migrations/*.sql]) that
    declare the relations are not among the sources.  The spec gives the
    persisted schema as Machine([machine_id] PK, ...), Metric([metric_key]
    PK, ...), Reading(..., unique on the triple).  The store holds the four
    relations that the statements of the sources name, each with the rows a
    [SELECT] on it sees. *)
Record Store := mkStore
  { machines : list Machine.t;
    metrics : list Metric.t;
    readings : list Reading.t;
    latest_readings : list Reading.t }.

Definition empty_store : Store := mkStore [] [] [] [].

(** What the sources leave to the database.  [on_insert r rs latest] is
    the content of [latest_readings] once the row [r] has been inserted into
    [readings], which then holds [rs], when [latest_readings] held [latest]
    before: the scripts that say whether [latest_readings] is a table fed by
    a trigger, a view, or a table that nothing feeds are not among the
    sources.  [select_machines] and [select_metrics] are the ids that
    [SELECT machine_id FROM machines] and [SELECT metric_key FROM metrics]
    return, in the order the database chooses: the statements have no
    [ORDER BY]. *)
Record engine := mkEngine
  { on_insert : Reading.t -> list Reading.t -> list Reading.t -> list Reading.t;
    select_machines : list Machine.t -> list string;
    select_metrics : list Metric.t -> list string }.

(** Both [SELECT]s return every id of their table, each as often as it is
    stored. *)
Definition select_complete (eng : engine) : Prop :=
  (forall tbl, Permutation (select_machines eng tbl)
                           (map Machine.machine_id tbl))
  /\ (forall tbl, Permutation (select_metrics eng tbl)
                              (map Metric.metric_key tbl)).

Definition same_pair (a b : Reading.t) : bool :=
  String.eqb (Reading.machine_id a) (Reading.machine_id b)
  && String.eqb (Reading.metric_key a) (Reading.metric_key b).

(** Modelled from the spec: how [latest_readings] follows [readings] is in
    the migration scripts, which are not among the sources.  The spec allows
    LatestReading to be "computed on read from Reading via a max-timestamp
    query per key": the rows of [readings] that no row of the same
    (machine_id, metric_key) exceeds in [ts_ms]. *)
Definition latest_view (rs : list Reading.t) : list Reading.t :=
  filter (fun r =>
            forallb (fun r' => negb (same_pair r' r)
                               || (Reading.ts_ms r' <=? Reading.ts_ms r)) rs)
         rs.

(** Modelled from the spec: [on_insert] for the max-timestamp query. *)
Definition spec_on_insert (r : Reading.t) (rs latest : list Reading.t)
    : list Reading.t :=
  latest_view rs.

(** An engine with the spec's [latest_readings] that returns the ids of a
    table in the order of its rows. *)
Definition spec_engine : engine :=
  mkEngine spec_on_insert (map Machine.machine_id) (map Metric.metric_key).

(** The same with the ids returned last row first. *)
Definition reversing_engine : engine :=
  mkEngine spec_on_insert
           (fun tbl => rev (map Machine.machine_id tbl))
           (fun tbl => rev (map Metric.metric_key tbl)).

(* ================================================================= *)
(** ** seed.py *)

Definition seed (conn : Store) : Store :=
  let machines' :=
    [ Machine.mk "m-001" "Press 1" (Some "Plant A") "ok";
      Machine.mk "m-002" "CNC 2" (Some "Plant A") "ok";
      Machine.mk "m-003" "Oven 1" (Some "Plant B") "ok" ] in
  let metrics' :=
    [ Metric.mk "temperature" "Temperature" "C";
      Metric.mk "pressure" "Pressure" "kPa";
      Metric.mk "vibration" "Vibration" "mm/s" ] in
  mkStore
    (executemany Machine.machine_id String.eqb machines' (machines conn))
    (executemany Metric.metric_key String.eqb metrics' (metrics conn))
    (readings conn)
    (latest_readings conn).

(** The store the server holds once [on_startup] has run on a fresh
    database: every table created empty, then the catalog seeded. *)
Definition startup_store : Store := seed empty_store.

(* ================================================================= *)
(** ** Exceptions *)

Inductive exn : Type :=
| HTTPException (status_code : Z) (detail : string)
| RequestValidationError (param : string)
| OperationalError
| IntegrityError
| OverflowError
| OtherError (name : string).

Inductive result (A : Type) : Type :=
| Ok (a : A)
| Raise (e : exn).
Arguments Ok {A} a.
Arguments Raise {A} e.

(** sqlite3 binds a Python [int] parameter as a signed 64-bit integer and
    raises [OverflowError] for an [int] outside that range. *)
Definition INT64_MIN : Z := - 2 ^ 63.
Definition INT64_MAX : Z := 2 ^ 63 - 1.

Definition fits_int64 (z : Z) : bool := (INT64_MIN <=? z) && (z <=? INT64_MAX).

(** An optional parameter is bound only when it is given. *)
Definition binds (o : option Z) : bool :=
  match o with
  | Some z => fits_int64 z
  | None => true
  end.

(* ================================================================= *)
(** ** db.py *)

(** A file of the migrations directory: its name, and what
    [read_text(encoding="utf-8")] gives for it, the text or the exception
    it raises (a directory, bytes that are not UTF-8). *)
Module MigrationFile.
Record t := mk { name : string; read_text : result string }.
End MigrationFile.

(** [sorted] on the paths of one directory orders them by file name, and
    Python compares [str] character by character. *)
Module PathOrder <: TotalLeBool.
Definition t := MigrationFile.t.
Definition leb (a b : t) : bool :=
  String.leb (MigrationFile.name a) (MigrationFile.name b).
Definition leb_total (a b : t) : leb a b = true \/ leb b a = true :=
  String.leb_total (MigrationFile.name a) (MigrationFile.name b).
End PathOrder.
Module PathSort := Sort PathOrder.

(** The lexical order on file names, strict and weak. *)
Definition string_lt (a b : string) : Prop := String.ltb a b = true.
Definition string_le (a b : string) : Prop := String.leb a b = true.

Definition endswith (suffix s : string) : bool :=
  let n := String.length suffix in
  let m := String.length s in
  (n <=? m)%nat && String.eqb (substring (m - n) n s) suffix.

(** [MIGRATIONS_DIR.glob("*.sql")] over the files of the directory. *)
Definition glob_sql (dir : list MigrationFile.t) : list MigrationFile.t :=
  filter (fun mf => endswith ".sql" (MigrationFile.name mf)) dir.

Module Db.
Section Migrations.
(** Everything in the database apart from the migration log, and the
    effect of running one script on it: the new schema, or the exception
    that sqlite3 raises. *)
Variable Schema : Type.
Variable executescript : string -> Schema -> result Schema.
(** [strftime(..., 'now')] at the time the row of a version is written. *)
Variable now : string -> Z.

(** [schema_migrations] is [None] until the table has been created. *)
Record conn := mkConn
  { schema : Schema;
    schema_migrations : option (list (string * Z)) }.

(** [CREATE TABLE IF NOT EXISTS schema_migrations]. *)
Definition create_schema_migrations (c : conn) : list (string * Z) :=
  match schema_migrations c with
  | Some tbl => tbl
  | None => []
  end.

(** The [for mf in migration_files] loop.  The last component of the
    result lists the versions whose script was executed, in order. *)
Fixpoint migrate (applied : list string) (migration_files : list MigrationFile.t)
    (sch : Schema) (tbl : list (string * Z))
    : result (Schema * list (string * Z) * list string) :=
  match migration_files with
  | [] => Ok (sch, tbl, [])
  | mf :: rest =>
      let version := MigrationFile.name mf in
      if existsb (String.eqb version) applied then migrate applied rest sch tbl
      else
        match MigrationFile.read_text mf with
        | Raise e => Raise e
        | Ok sql =>
            match executescript sql sch with
            | Raise e => Raise e
            | Ok sch' =>
                (* INSERT INTO schema_migrations(version): primary key *)
                if existsb (fun row => String.eqb (fst row) version) tbl
                then Raise IntegrityError
                else
                  match migrate applied rest sch'
                          (tbl ++ [(version, now version)]) with
                  | Ok (sch'', tbl'', ran) => Ok (sch'', tbl'', version :: ran)
                  | Raise e => Raise e
                  end
            end
        end
  end.

Definition apply_migrations (dir : list MigrationFile.t) (c : conn)
    : result (conn * list string) :=
  let tbl := create_schema_migrations c in
  let applied := map fst tbl in
  let migration_files := PathSort.sort (glob_sql dir) in
  match migrate applied migration_files (schema c) tbl with
  | Ok (sch, tbl', ran) => Ok (mkConn sch (Some tbl'), ran)
  | Raise e => Raise e
  end.

Definition versions (c : conn) : list string :=
  map fst (create_schema_migrations c).

(** The files whose version is not among [applied], in the given order. *)
Definition pending (applied : list string) (files : list MigrationFile.t)
    : list MigrationFile.t :=
  filter (fun mf => negb (existsb (String.eqb (MigrationFile.name mf)) applied))
         files.

(** Reading one file and running its script. *)
Definition run_script (mf : MigrationFile.t) (sch : Schema) : result Schema :=
  match MigrationFile.read_text mf with
  | Raise e => Raise e
  | Ok sql => executescript sql sch
  end.

(** Running the scripts of [files] one after the other; [None] when one
    of them cannot be read or does not run through. *)
Fixpoint executescripts (files : list MigrationFile.t) (sch : Schema)
    : option Schema :=
  match files with
  | [] => Some sch
  | mf :: rest =>
      match run_script mf sch with
      | Ok sch' => executescripts rest sch'
      | Raise _ => None
      end
  end.

(** The same, keeping the exception of the first script that fails. *)
Fixpoint run_scripts (files : list MigrationFile.t) (sch : Schema)
    : result Schema :=
  match files with
  | [] => Ok sch
  | mf :: rest =>
      match run_script mf sch with
      | Ok sch' => run_scripts rest sch'
      | Raise e => Raise e
      end
  end.
End Migrations.
End Db.

(** A migrations directory listed out of order, with one file that is not
    a script; a schema that is the list of statements run so far; and a
    connection on which the first script has already been applied. *)
Definition example_dir : list MigrationFile.t :=
  [ MigrationFile.mk "003_indexes.sql" (Ok "CREATE INDEX readings_ts");
    MigrationFile.mk "README.md" (Ok "notes");
    MigrationFile.mk "001_init.sql" (Ok "CREATE machines, metrics");
    MigrationFile.mk "002_readings.sql" (Ok "CREATE readings") ].

Definition example_executescript (sql : string) (sch : list string)
    : result (list string) :=
  Ok (sch ++ [sql]).

Definition example_conn : Db.conn (list string) :=
  Db.mkConn (list string) ["CREATE machines, metrics"]
            (Some [("001_init.sql", 100)]).

(* ================================================================= *)
(** ** simulator.py *)

Module TelemetrySimulator.

(** The simulator object.  [live_workers] and [next_ident] are the
    interpreter's side of [threading]: the identifiers of the threads
    that are executing [_run_loop], and the next fresh identifier.  A
    thread leaves [live_workers] when it ends, see [worker_ends]; [stop]
    sees it gone when it ends within the wait of [join]. *)
Record t := mk
  { _thread : option nat;
    _stop : bool;
    _running : bool;
    interval_s : float;
    live_workers : list nat;
    next_ident : nat }.

Definition __init__ : t := mk None false false 0.5%float [] 0%nat.

Definition is_running (self : t) : bool := _running self.

Definition start (self : t) : t :=
  if _running self then self
  else
    mk (Some (next_ident self)) false true (interval_s self)
       (live_workers self ++ [next_ident self]) (S (next_ident self)).

(** [exits_in_time] tells whether the worker leaves its loop within the
    2.0 s that [join] waits.  The second component of the result records
    whether [join] was called at all. *)
Definition stop (exits_in_time : bool) (self : t) : t * bool :=
  if negb (_running self) then (self, false)
  else
    let self1 :=
      mk (_thread self) true false (interval_s self)
         (live_workers self) (next_ident self) in
    match _thread self1 with
    | Some th =>
        if exits_in_time then
          (mk (_thread self1) true false (interval_s self1)
              (filter (fun i => negb (Nat.eqb i th)) (live_workers self1))
              (next_ident self1), true)
        else (self1, true)
    | None => (self1, false)
    end.

(** The thread [th] ends: its [_run_loop] returned, or an exception left
    it.  Nothing of the simulator object changes. *)
Definition worker_ends (th : nat) (self : t) : t :=
  mk (_thread self) (_stop self) (_running self) (interval_s self)
     (filter (fun i => negb (Nat.eqb i th)) (live_workers self))
     (next_ident self).

Section Loop.
(** The database behind [self._conn]. *)
Variable eng : engine.
(** [math.sin], and the phase offsets drawn when the loop starts. *)
Variable sin : float -> float.
Variable machine_phase : string -> float.
Variable metric_phase : string -> float.

Local Open Scope float_scope.

(** [noise] is the draw of [random.uniform(-0.5, 0.5)]. *)
Definition _value_for (noise : float) (metric_key : string)
    (t mp kp : float) : float :=
  if String.eqb metric_key "temperature" then
    let base := 70.0 + 5.0 * sin ((t / 6.0) + mp + kp) in
    base + noise
  else if String.eqb metric_key "pressure" then
    let base := 101.3 + 2.0 * sin ((t / 4.0) + mp * 0.7 + kp) in
    base + noise * 0.3
  else if String.eqb metric_key "vibration" then
    let base := 3.0 + 1.5 * abs (sin ((t / 2.0) + mp + kp)) in
    base + noise * 0.2
  else 10.0 + sin (t + mp + kp) + noise.

Local Close Scope float_scope.

(** What one pass through the [while] loop observes of its
    environment: the stop event, the two clock readings, the noise
    drawn for each pair, and whether the batch write raises. *)
Record iteration := mkIteration
  { stop_is_set : bool;
    now_ms : Z;
    t_now : float;
    noise : string -> string -> float;
    write_raises : bool }.

(** The [rows] list assembled by the two nested [for] loops. *)
Definition tick_rows (machines metrics : list string) (it : iteration)
    : list Reading.t :=
  flat_map (fun m =>
    let mp := machine_phase m in
    map (fun k =>
      let kp := metric_phase k in
      let value := _value_for (noise it m k) k (t_now it) mp kp in
      Reading.mk m k (now_ms it) value) metrics) machines.

(** [INSERT OR IGNORE INTO readings VALUES r]: a row whose key is stored
    is skipped and nothing happens; any other row is appended, and the
    database brings [latest_readings] up to date. *)
Definition insert_reading (r : Reading.t) (conn : Store) : Store :=
  if existsb (fun x => reading_key_eqb (Reading.key x) (Reading.key r))
             (readings conn)
  then conn
  else
    let rs := readings conn ++ [r] in
    mkStore (machines conn) (metrics conn) rs
            (on_insert eng r rs (latest_readings conn)).

Definition executemany_readings (rows : list Reading.t) (conn : Store) : Store :=
  fold_left (fun c r => insert_reading r c) rows conn.

(** [with self._conn: self._conn.executemany("INSERT OR IGNORE INTO
    readings ...", rows)]: one transaction; when it raises, the
    transaction is rolled back and the exception is raised again.  It
    raises when the database faults ([raises]) and when a [ts_ms] cannot be
    bound. *)
Definition write_rows (raises : bool) (rows : list Reading.t)
    (conn : Store) : result Store :=
  if raises then Raise OperationalError
  else if forallb (fun r => fits_int64 (Reading.ts_ms r)) rows
  then Ok (executemany_readings rows conn)
  else Raise OverflowError.

Inductive loop_state : Type :=
  | Exited                 (* the stop event was seen: the loop returned *)
  | Died (e : exn)         (* an exception left [_run_loop] *)
  | Looping.               (* the trace ended with the loop still going *)

Fixpoint loop (machines metrics : list string) (trace : list iteration)
    (conn : Store) : Store * loop_state :=
  match trace with
  | [] => (conn, Looping)
  | it :: rest =>
      if stop_is_set it then (conn, Exited)
      else
        let rows := tick_rows machines metrics it in
        match write_rows (write_raises it) rows conn with
        | Raise e => (conn, Died e)
        | Ok conn' => loop machines metrics rest conn'
        end
  end.

Definition _run_loop (trace : list iteration) (conn : Store)
    : Store * loop_state :=
  let machines := select_machines eng (machines conn) in
  let metrics := select_metrics eng (metrics conn) in
  loop machines metrics trace conn.
End Loop.
End TelemetrySimulator.

(* ================================================================= *)
(** ** app.py *)

(** [ORDER BY ts_ms DESC] *)
Module TsDescOrder <: TotalLeBool.
Definition t := Reading.t.
Definition leb (a b : t) : bool := Z.leb (Reading.ts_ms b) (Reading.ts_ms a).
Definition leb_total (a b : t) : leb a b = true \/ leb b a = true.
Proof.
  unfold leb. destruct (Z.leb_spec (Reading.ts_ms b) (Reading.ts_ms a)).
  - now left.
  - right. apply Z.leb_le. lia.
Qed.
End TsDescOrder.
Module TsDescSort := Sort TsDescOrder.

(** [ORDER BY metric_key] *)
Module MetricKeyOrder <: TotalLeBool.
Definition t := Reading.t.
Definition leb (a b : t) : bool :=
  String.leb (Reading.metric_key a) (Reading.metric_key b).
Definition leb_total (a b : t) : leb a b = true \/ leb b a = true :=
  String.leb_total (Reading.metric_key a) (Reading.metric_key b).
End MetricKeyOrder.
Module MetricKeySort := Sort MetricKeyOrder.

(** [SELECT 1 FROM machines WHERE machine_id = ?] returned a row. *)
Definition machine_exists (conn : Store) (machine_id : string) : bool :=
  existsb (fun m => String.eqb (Machine.machine_id m) machine_id)
          (machines conn).

Definition to_LatestReading (r : Reading.t) : LatestReading.t :=
  LatestReading.mk (Reading.machine_id r) (Reading.metric_key r)
                   (Reading.ts_ms r) (Reading.value r).

Definition to_ReadingPoint (r : Reading.t) : ReadingPoint.t :=
  ReadingPoint.mk (Reading.ts_ms r) (Reading.value r).

(** [GET /latest].  [conn] is the connection that [on_startup] opened. *)
Definition get_latest (conn : Store) (machine_id : string)
    : result (list LatestReading.t) :=
  let exists' := machine_exists conn machine_id in
  if negb exists' then Raise (HTTPException 404 "Unknown machine_id")
  else
    let rows :=
      MetricKeySort.sort
        (filter (fun r => String.eqb (Reading.machine_id r) machine_id)
                (latest_readings conn)) in
    Ok (map to_LatestReading rows).

(** The [WHERE] clause that [get_history] assembles. *)
Definition history_where (machine_id metric_key : string)
    (start_ms end_ms : option Z) (r : Reading.t) : bool :=
  String.eqb (Reading.machine_id r) machine_id
  && String.eqb (Reading.metric_key r) metric_key
  && match start_ms with
     | Some lo => lo <=? Reading.ts_ms r
     | None => true
     end
  && match end_ms with
     | Some hi => Reading.ts_ms r <=? hi
     | None => true
     end.

(** [Query(500, ge=1, le=5000)]: the default, then the range check that
    the framework runs before it calls the handler. *)
Definition validate_limit (limit : option Z) : result Z :=
  let v := match limit with Some v => v | None => 500 end in
  if (1 <=? v) && (v <=? 5000) then Ok v
  else Raise (RequestValidationError "limit").

(** [GET /history].  The limit is validated before the handler runs; the
    bounds that are given are bound as parameters of the statement when it
    is executed. *)
Definition get_history (conn : Store) (machine_id metric_key : string)
    (start_ms end_ms : option Z) (limit : option Z)
    : result (list ReadingPoint.t) :=
  match validate_limit limit with
  | Raise e => Raise e
  | Ok limit =>
      if binds start_ms && binds end_ms then
        let rows :=
          firstn (Z.to_nat limit)
            (TsDescSort.sort
               (filter (history_where machine_id metric_key start_ms end_ms)
                       (readings conn))) in
        let points := map to_ReadingPoint rows in
        Ok (rev points)
      else Raise OverflowError
  end.

(* ================================================================= *)
(** ** Stores the running server can hold *)

(** The only writers are [seed], at every start of the server, and the
    worker thread, so the store is always the result of some runs of
    [_run_loop] and some further calls of [seed] from [startup_store]. *)
Inductive reachable (eng : engine) : Store -> Prop :=
| reach_startup : reachable eng startup_store
| reach_run : forall sin machine_phase metric_phase trace conn,
    reachable eng conn ->
    reachable eng
      (fst (TelemetrySimulator._run_loop eng sin machine_phase metric_phase
              trace conn))
| reach_restart : forall conn,
    reachable eng conn -> reachable eng (seed conn).

(** A store with five temperature readings of "m-001", given out of order,
    one pressure reading, and one row in [latest_readings]. *)
Definition example_store : Store :=
  mkStore (machines startup_store) (metrics startup_store)
    [ Reading.mk "m-001" "temperature" 3000 70.5%float;
      Reading.mk "m-001" "temperature" 1000 69.5%float;
      Reading.mk "m-001" "pressure" 1000 101.25%float;
      Reading.mk "m-001" "temperature" 5000 72.5%float;
      Reading.mk "m-001" "temperature" 2000 70.0%float;
      Reading.mk "m-001" "temperature" 4000 71.5%float ]
    [ Reading.mk "m-001" "temperature" 5000 72.5%float ].

(** A store whose [latest_readings] holds rows of two machines, not in
    key order. *)
Definition example_latest_store : Store :=
  mkStore (machines startup_store) (metrics startup_store) []
    [ Reading.mk "m-001" "vibration" 5000 3.5%float;
      Reading.mk "m-002" "pressure" 5000 101.5%float;
      Reading.mk "m-001" "pressure" 5000 100.5%float ].

(** The matching rows of a history query. *)
Definition history_matches (conn : Store) (machine_id metric_key : string)
    (start_ms end_ms : option Z) : list Reading.t :=
  filter (history_where machine_id metric_key start_ms end_ms) (readings conn).

(** [ts] lies within the optional inclusive bounds. *)
Definition within_bounds (start_ms end_ms : option Z) (ts : Z) : Prop :=
  match start_ms with Some lo => lo <= ts | None => True end
  /\ match end_ms with Some hi => ts <= hi | None => True end.

Definition ts_le (a b : Reading.t) : Prop := Reading.ts_ms a <= Reading.ts_ms b.

(** What a history request asks for: the readings of the machine and the
    metric whose [ts_ms] lies within the bounds. *)
Definition requested (machine_id metric_key : string)
    (start_ms end_ms : option Z) (r : Reading.t) : Prop :=
  Reading.machine_id r = machine_id
  /\ Reading.metric_key r = metric_key
  /\ within_bounds start_ms end_ms (Reading.ts_ms r).

(** [latest_readings] is what the spec's max-timestamp query gives on
    [readings]. *)
Definition latest_consistent (conn : Store) : Prop :=
  latest_readings conn = latest_view (readings conn).

(** The key of a reading is unique in the table. *)
Definition unique_keys (tbl : list Reading.t) : Prop :=
  NoDup (map Reading.key tbl).

(** Every reading belongs to a machine of the catalog. *)
Definition readings_in_catalog (conn : Store) : Prop :=
  forall r, In r (readings conn) ->
    machine_exists conn (Reading.machine_id r) = true.

(* ================================================================= *)
(** ** app.py: the catalog handlers, the globals and the simulator handlers *)

(** [ORDER BY machine_id] on the rows of [machines] *)
Module MachineIdOrder <: TotalLeBool.
Definition t := Machine.t.
Definition leb (a b : t) : bool :=
  String.leb (Machine.machine_id a) (Machine.machine_id b).
Definition leb_total (a b : t) : leb a b = true \/ leb b a = true :=
  String.leb_total (Machine.machine_id a) (Machine.machine_id b).
End MachineIdOrder.
Module MachineIdSort := Sort MachineIdOrder.

(** [ORDER BY metric_key] on the rows of [metrics] *)
Module MetricRowOrder <: TotalLeBool.
Definition t := Metric.t.
Definition leb (a b : t) : bool :=
  String.leb (Metric.metric_key a) (Metric.metric_key b).
Definition leb_total (a b : t) : leb a b = true \/ leb b a = true :=
  String.leb_total (Metric.metric_key a) (Metric.metric_key b).
End MetricRowOrder.
Module MetricRowSort := Sort MetricRowOrder.

(** [GET /machines] *)
Definition get_machines (conn : Store) : list Machine.t :=
  MachineIdSort.sort (machines conn).

(** [GET /metrics] *)
Definition get_metrics (conn : Store) : list Metric.t :=
  MetricRowSort.sort (metrics conn).

(** The rows that [get_history] turns into points, for a limit [n] that
    passed validation. *)
Definition history_rows (conn : Store) (machine_id metric_key : string)
    (start_ms end_ms : option Z) (n : Z) : list Reading.t :=
  rev (firstn (Z.to_nat n)
         (TsDescSort.sort
            (history_matches conn machine_id metric_key start_ms end_ms))).

Module App.

(** The module globals [_conn] and [_sim]. *)
Record t := mk
  { _conn : option Store;
    _sim : option TelemetrySimulator.t }.

Inductive outcome (A : Type) : Type :=
| Returned (a : A)
| RuntimeError (msg : string).
Arguments Returned {A} a.
Arguments RuntimeError {A} msg.

(** The globals when the module has been loaded. *)
Definition loaded : t := mk None None.

(** [on_startup], given the connection that [connect()] opened and
    [apply_migrations] migrated. *)
Definition on_startup (migrated : Store) : t :=
  mk (Some (seed migrated)) (Some TelemetrySimulator.__init__).

Definition conn (app : t) : outcome Store :=
  match _conn app with
  | None => RuntimeError "DB not initialized"
  | Some c => Returned c
  end.

Definition sim (app : t) : outcome TelemetrySimulator.t :=
  match _sim app with
  | None => RuntimeError "Simulator not initialized"
  | Some s => Returned s
  end.

(** [POST /simulate/start]; the boolean is the ["running"] entry of the
    returned dict. *)
Definition simulate_start (app : t) : t * outcome bool :=
  match sim app with
  | RuntimeError msg => (app, RuntimeError msg)
  | Returned s =>
      let s' := TelemetrySimulator.start s in
      (mk (_conn app) (Some s'), Returned (TelemetrySimulator.is_running s'))
  end.

(** [POST /simulate/stop] *)
Definition simulate_stop (exits_in_time : bool) (app : t) : t * outcome bool :=
  match sim app with
  | RuntimeError msg => (app, RuntimeError msg)
  | Returned s =>
      let s' := fst (TelemetrySimulator.stop exits_in_time s) in
      (mk (_conn app) (Some s'), Returned (TelemetrySimulator.is_running s'))
  end.

(** [GET /simulate/status] *)
Definition simulate_status (app : t) : outcome bool :=
  match sim app with
  | RuntimeError msg => RuntimeError msg
  | Returned s => Returned (TelemetrySimulator.is_running s)
  end.
End App.

(* ================================================================= *)
(** ** Sequences of control calls on one simulator *)

(** What can happen to one simulator: a call of [start], a call of
    [stop], and the end of a worker thread, whose [_run_loop] returned or
    was left by an exception. *)
Inductive call : Type :=
| CallStart
| CallStop (exits_in_time : bool)
| WorkerEnds (th : nat).

Definition do_call (c : call) (self : TelemetrySimulator.t)
    : TelemetrySimulator.t :=
  match c with
  | CallStart => TelemetrySimulator.start self
  | CallStop b => fst (TelemetrySimulator.stop b self)
  | WorkerEnds th => TelemetrySimulator.worker_ends th self
  end.

Definition do_calls (cs : list call) (self : TelemetrySimulator.t)
    : TelemetrySimulator.t :=
  fold_left (fun s c => do_call c s) cs self.

(** What every sequence of control calls keeps true of the simulator. *)
Definition control_invariant (s : TelemetrySimulator.t) : Prop :=
  TelemetrySimulator._stop s
  = negb (TelemetrySimulator._running s)
    && match TelemetrySimulator._thread s with Some _ => true | None => false end
  /\ (TelemetrySimulator._running s = true ->
      TelemetrySimulator._thread s <> None)
  /\ TelemetrySimulator.interval_s s = 0.5%float
  /\ NoDup (TelemetrySimulator.live_workers s)
  /\ Forall (fun i => (i < TelemetrySimulator.next_ident s)%nat)
            (TelemetrySimulator.live_workers s)
  /\ (forall th, TelemetrySimulator._thread s = Some th ->
        (th < TelemetrySimulator.next_ident s)%nat).

(* ================================================================= *)
(** * Properties *)

(** ** Tables under [INSERT OR IGNORE] *)

Section TableFacts.
Context {A K : Type}.
Variable key : A -> K.
Variable key_eqb : K -> K -> bool.
Hypothesis key_eqb_eq : forall a b, key_eqb a b = true <-> a = b.

Lemma lookup_app (k : K) (l1 l2 : list A) :
  lookup key key_eqb k (l1 ++ l2) =
  match lookup key key_eqb k l1 with
  | Some x => Some x
  | None => lookup key key_eqb k l2
  end.
Proof.
  unfold lookup. induction l1 as [|x l1 IH]; simpl; [reflexivity|].
  destruct (key_eqb (key x) k); [reflexivity | exact IH].
Qed.

Lemma existsb_lookup (k : K) (tbl : list A) :
  existsb (fun x => key_eqb (key x) k) tbl =
  match lookup key key_eqb k tbl with Some _ => true | None => false end.
Proof.
  unfold lookup. induction tbl as [|x tbl IH]; simpl; [reflexivity|].
  destruct (key_eqb (key x) k); simpl; [reflexivity | exact IH].
Qed.

Lemma lookup_key (k : K) (tbl : list A) (x : A) :
  lookup key key_eqb k tbl = Some x -> In x tbl /\ key x = k.
Proof.
  unfold lookup. intros H. apply find_some in H. destruct H as [Hin Hk].
  split; [exact Hin | now apply key_eqb_eq].
Qed.

Lemma lookup_None_iff (k : K) (tbl : list A) :
  lookup key key_eqb k tbl = None <-> ~ In k (map key tbl).
Proof.
  split.
  - intros H Hin. apply in_map_iff in Hin. destruct Hin as [x [Hx Hin]].
    pose proof (find_none _ _ H x Hin) as Hf. simpl in Hf.
    assert (key_eqb (key x) k = true) by now apply key_eqb_eq.
    congruence.
  - intros H. destruct (lookup key key_eqb k tbl) as [x|] eqn:E; [|reflexivity].
    exfalso. apply H. apply lookup_key in E. destruct E as [Hin <-].
    now apply in_map.
Qed.

Lemma insert_or_ignore_cases (r : A) (tbl : list A) :
  (lookup key key_eqb (key r) tbl <> None /\ insert_or_ignore key key_eqb r tbl = tbl)
  \/ (lookup key key_eqb (key r) tbl = None
      /\ insert_or_ignore key key_eqb r tbl = tbl ++ [r]).
Proof.
  unfold insert_or_ignore. rewrite existsb_lookup.
  destruct (lookup key key_eqb (key r) tbl); [left | right]; split;
    congruence.
Qed.

Lemma lookup_insert_or_ignore (k : K) (r : A) (tbl : list A) :
  lookup key key_eqb k (insert_or_ignore key key_eqb r tbl) =
  match lookup key key_eqb k tbl with
  | Some x => Some x
  | None => lookup key key_eqb k [r]
  end.
Proof.
  destruct (insert_or_ignore_cases r tbl) as [[Hex ->] | [_ ->]].
  - destruct (lookup key key_eqb k tbl) eqn:E; [reflexivity|].
    unfold lookup at 1. simpl.
    destruct (key_eqb (key r) k) eqn:Ek; [|reflexivity].
    apply key_eqb_eq in Ek. subst k. contradiction.
  - apply lookup_app.
Qed.

Lemma executemany_cons (r : A) (rows tbl : list A) :
  executemany key key_eqb (r :: rows) tbl =
  executemany key key_eqb rows (insert_or_ignore key key_eqb r tbl).
Proof. reflexivity. Qed.

Lemma lookup_executemany (rows : list A) :
  forall (tbl : list A) (k : K),
    lookup key key_eqb k (executemany key key_eqb rows tbl) =
    match lookup key key_eqb k tbl with
    | Some x => Some x
    | None => lookup key key_eqb k rows
    end.
Proof.
  induction rows as [|r rows IH]; intros tbl k.
  - simpl. now destruct (lookup key key_eqb k tbl).
  - rewrite executemany_cons, IH, lookup_insert_or_ignore.
    destruct (lookup key key_eqb k tbl); [reflexivity|].
    unfold lookup. simpl. now destruct (key_eqb (key r) k).
Qed.

(** A batch leaves every existing row where it is and appends rows whose
    keys were not present. *)
Lemma executemany_appends (rows : list A) :
  forall tbl : list A,
    exists added,
      executemany key key_eqb rows tbl = tbl ++ added
      /\ Forall (fun r => In r rows /\ lookup key key_eqb (key r) tbl = None)
                added.
Proof.
  induction rows as [|r rows IH]; intros tbl.
  - exists []. simpl. now rewrite app_nil_r.
  - rewrite executemany_cons.
    destruct (insert_or_ignore_cases r tbl) as [[_ E] | [Hnone E]]; rewrite E.
    + destruct (IH tbl) as [added [Heq Hall]]. exists added. split; [exact Heq|].
      eapply Forall_impl; [|exact Hall]. simpl. intros a [Ha Hn]. auto.
    + destruct (IH (tbl ++ [r])) as [added [Heq Hall]].
      exists (r :: added). split.
      * now rewrite Heq, <- app_assoc.
      * constructor; [split; [now left | exact Hnone]|].
        eapply Forall_impl; [|exact Hall]. simpl. intros a [Ha Hn].
        split; [auto|]. rewrite lookup_app in Hn.
        now destruct (lookup key key_eqb (key a) tbl).
Qed.

Lemma insert_or_ignore_NoDup (r : A) (tbl : list A) :
  NoDup (map key tbl) -> NoDup (map key (insert_or_ignore key key_eqb r tbl)).
Proof.
  intros Hnd. destruct (insert_or_ignore_cases r tbl) as [[_ ->] | [Hnone ->]];
    [exact Hnd|].
  rewrite map_app. simpl. apply NoDup_app; [exact Hnd | | ].
  - constructor; [intros [] | constructor].
  - intros a Ha [<- | []]. now apply lookup_None_iff in Hnone.
Qed.

Lemma executemany_NoDup (rows : list A) :
  forall tbl, NoDup (map key tbl) ->
    NoDup (map key (executemany key key_eqb rows tbl)).
Proof.
  induction rows as [|r rows IH]; intros tbl Hnd; [exact Hnd|].
  rewrite executemany_cons. apply IH. now apply insert_or_ignore_NoDup.
Qed.

Lemma executemany_In (rows : list A) :
  forall tbl x, In x (executemany key key_eqb rows tbl) ->
    In x tbl \/ In x rows.
Proof.
  intros tbl x Hin. destruct (executemany_appends rows tbl) as [added [E Hall]].
  rewrite E in Hin. apply in_app_or in Hin. destruct Hin as [H | H]; [now left|].
  right. rewrite Forall_forall in Hall. now apply Hall.
Qed.
End TableFacts.

Lemma reading_key_eqb_eq (a b : string * string * Z) :
  reading_key_eqb a b = true <-> a = b.
Proof.
  destruct a as [[m1 k1] t1], b as [[m2 k2] t2]. unfold reading_key_eqb.
  rewrite !andb_true_iff, !String.eqb_eq, Z.eqb_eq.
  split; [intros [[-> ->] ->]; reflexivity | intros H; inversion H; auto].
Qed.

(* ================================================================= *)
(** ** The write path of a tick *)

Import TelemetrySimulator.

Section FirstOccurrences.
Context {A K : Type}.
Variable key : A -> K.
Variable key_eqb : K -> K -> bool.
Hypothesis key_eqb_eq : forall a b, key_eqb a b = true <-> a = b.

Lemma first_of_its_key_later (x r : A) (rows : list A) :
  key x <> key r -> first_of_its_key key x rows -> first_of_its_key key x (r :: rows).
Proof.
  intros Hne [pre [post [-> Hpre]]]. exists (r :: pre), post.
  split; [reflexivity|]. simpl. intros [E | Hin]; [now apply Hne | auto].
Qed.

(** A batch appends, for each key that was not stored, the first row of
    the batch with that key, once, and nothing else. *)
Lemma executemany_first_occurrences (rows : list A) :
  forall tbl,
    exists added,
      executemany key key_eqb rows tbl = tbl ++ added
      /\ NoDup (map key added)
      /\ Forall (fun r => ~ In (key r) (map key tbl) /\ first_of_its_key key r rows)
                added
      /\ forall r, In r rows -> In (key r) (map key (tbl ++ added)).
Proof.
  induction rows as [|r rows IH]; intros tbl.
  - exists []. simpl. rewrite app_nil_r.
    repeat split; [constructor | constructor | intros r []].
  - rewrite executemany_cons.
    destruct (insert_or_ignore_cases key key_eqb r tbl) as [[Hex E] | [Hn E]];
      rewrite E.
    + destruct (IH tbl) as [added [E1 [E2 [E3 E4]]]].
      assert (Hin : In (key r) (map key tbl)).
      { destruct (lookup key key_eqb (key r) tbl) as [x|] eqn:El;
          [|contradiction].
        apply (lookup_key key key_eqb key_eqb_eq) in El.
        destruct El as [Hx <-]. now apply in_map. }
      exists added. repeat split; [exact E1 | exact E2 | |].
      * eapply Forall_impl; [|exact E3]. simpl. intros x [Hx Hf].
        split; [exact Hx|]. apply first_of_its_key_later; [|exact Hf].
        intros Ek. apply Hx. now rewrite Ek.
      * intros x [<- | Hx]; [|now apply E4].
        rewrite map_app. apply in_or_app. now left.
    + apply (lookup_None_iff key key_eqb key_eqb_eq) in Hn.
      destruct (IH (tbl ++ [r])) as [added [E1 [E2 [E3 E4]]]].
      rewrite Forall_forall in E3.
      exists (r :: added). repeat split.
      * now rewrite E1, <- app_assoc.
      * simpl. constructor; [|exact E2].
        intros Hin. apply in_map_iff in Hin. destruct Hin as [x [Ek Hx]].
        destruct (E3 x Hx) as [Hfresh _]. apply Hfresh.
        rewrite map_app. apply in_or_app. right. simpl. now left.
      * apply Forall_forall. intros x [<- | Hx].
        -- split; [exact Hn|]. exists [], rows. split; [reflexivity | intros []].
        -- destruct (E3 x Hx) as [Hfresh Hf].
           rewrite map_app in Hfresh.
           split; [intros Hin; apply Hfresh, in_or_app; now left|].
           apply first_of_its_key_later; [|exact Hf].
           intros Ek. apply Hfresh, in_or_app. right. simpl. now left.
      * intros x [<- | Hx].
        -- rewrite map_app. apply in_or_app. right. simpl. now left.
        -- specialize (E4 x Hx). now rewrite <- app_assoc in E4.
Qed.
End FirstOccurrences.

Section StoreInsert.
Variable eng : engine.

Lemma insert_reading_readings (r : Reading.t) (conn : Store) :
  readings (insert_reading eng r conn)
  = insert_or_ignore Reading.key reading_key_eqb r (readings conn).
Proof.
  unfold insert_reading, insert_or_ignore.
  now destruct (existsb _ (readings conn)).
Qed.

Lemma insert_reading_catalog (r : Reading.t) (conn : Store) :
  machines (insert_reading eng r conn) = machines conn
  /\ metrics (insert_reading eng r conn) = metrics conn.
Proof.
  unfold insert_reading. now destruct (existsb _ (readings conn)).
Qed.

Lemma executemany_readings_cons (r : Reading.t) (rows : list Reading.t)
    (conn : Store) :
  executemany_readings eng (r :: rows) conn
  = executemany_readings eng rows (insert_reading eng r conn).
Proof. reflexivity. Qed.

Lemma executemany_readings_readings (rows : list Reading.t) :
  forall conn,
    readings (executemany_readings eng rows conn)
    = executemany Reading.key reading_key_eqb rows (readings conn).
Proof.
  induction rows as [|r rows IH]; intros conn; [reflexivity|].
  now rewrite executemany_readings_cons, IH, insert_reading_readings.
Qed.

Lemma executemany_readings_catalog (rows : list Reading.t) :
  forall conn,
    machines (executemany_readings eng rows conn) = machines conn
    /\ metrics (executemany_readings eng rows conn) = metrics conn.
Proof.
  induction rows as [|r rows IH]; intros conn; [now split|].
  rewrite executemany_readings_cons.
  destruct (IH (insert_reading eng r conn)) as [-> ->].
  apply insert_reading_catalog.
Qed.

(** A batch whose keys are all stored leaves the store as it is. *)
Lemma executemany_readings_present (rows : list Reading.t) :
  forall conn,
    (forall r, In r rows -> In (Reading.key r) (map Reading.key (readings conn))) ->
    executemany_readings eng rows conn = conn.
Proof.
  induction rows as [|r rows IH]; intros conn Hall; [reflexivity|].
  rewrite executemany_readings_cons.
  assert (E : insert_reading eng r conn = conn).
  { unfold insert_reading.
    destruct (existsb _ (readings conn)) eqn:Ex; [reflexivity|].
    exfalso. specialize (Hall r (or_introl eq_refl)).
    apply in_map_iff in Hall. destruct Hall as [x [Ek Hx]].
    assert (Ht : existsb (fun x => reading_key_eqb (Reading.key x) (Reading.key r))
                   (readings conn) = true).
    { apply existsb_exists. exists x. split; [exact Hx|].
      now apply reading_key_eqb_eq. }
    congruence. }
  rewrite E. apply IH. intros x Hx. apply Hall. now right.
Qed.

Lemma write_rows_Ok_inv (b : bool) (rows : list Reading.t) (conn conn' : Store) :
  write_rows eng b rows conn = Ok conn' ->
  b = false
  /\ Forall (fun r => fits_int64 (Reading.ts_ms r) = true) rows
  /\ conn' = executemany_readings eng rows conn.
Proof.
  unfold write_rows. destruct b; [discriminate|].
  destruct (forallb _ rows) eqn:E; [|discriminate].
  intros H. inversion H; subst. repeat split.
  apply Forall_forall. rewrite forallb_forall in E. exact E.
Qed.

Lemma write_rows_fits (rows : list Reading.t) (conn : Store) :
  Forall (fun r => fits_int64 (Reading.ts_ms r) = true) rows ->
  write_rows eng false rows conn = Ok (executemany_readings eng rows conn).
Proof.
  intros H. unfold write_rows.
  assert (E : forallb (fun r => fits_int64 (Reading.ts_ms r)) rows = true).
  { apply forallb_forall. now apply Forall_forall. }
  now rewrite E.
Qed.

(** C6.  Writing a batch raises nothing because of the keys in it: unless
    the database faults, the only exception is the [OverflowError] for a
    [ts_ms] that cannot be bound, which no stored key has.  Otherwise the
    batch is written, whatever keys it repeats.  The rows that were stored
    stay where they are, followed by the rows [added].  No row of [added]
    has a key that was stored, no two rows of [added] share a key, and each
    is the first row of the batch with its key; every key of the batch is
    stored afterwards.  So a row whose key is taken, by a stored row or by
    an earlier row of the same batch, is dropped, whatever its value, and
    unique keys stay unique. *)
Theorem duplicate_reading_keeps_first (rows : list Reading.t) (conn : Store) :
  if forallb (fun r => fits_int64 (Reading.ts_ms r)) rows then
    exists conn' added,
      write_rows eng false rows conn = Ok conn'
      /\ readings conn' = readings conn ++ added
      /\ NoDup (map Reading.key added)
      /\ Forall (fun r => ~ In (Reading.key r) (map Reading.key (readings conn))
                          /\ first_of_its_key Reading.key r rows) added
      /\ (forall r, In r rows ->
            In (Reading.key r) (map Reading.key (readings conn')))
      /\ (unique_keys (readings conn) -> unique_keys (readings conn'))
  else write_rows eng false rows conn = Raise OverflowError.
Proof.
  destruct (forallb (fun r => fits_int64 (Reading.ts_ms r)) rows) eqn:Hfit;
    [|unfold write_rows; now rewrite Hfit].
  destruct (executemany_first_occurrences Reading.key reading_key_eqb
              reading_key_eqb_eq rows (readings conn))
    as [added [E1 [E2 [E3 E4]]]].
  exists (executemany_readings eng rows conn), added.
  rewrite executemany_readings_readings.
  split; [unfold write_rows; now rewrite Hfit|].
  split; [exact E1|]. split; [exact E2|]. split; [exact E3|].
  split; [now rewrite E1|].
  intros Hu. unfold unique_keys.
  apply executemany_NoDup; [exact reading_key_eqb_eq | exact Hu].
Qed.

Lemma write_rows_unique_keys (rows : list Reading.t) (conn conn' : Store) (b : bool) :
  write_rows eng b rows conn = Ok conn' ->
  unique_keys (readings conn) -> unique_keys (readings conn').
Proof.
  intros H Hu. apply write_rows_Ok_inv in H. destruct H as [_ [_ ->]].
  rewrite executemany_readings_readings.
  apply executemany_NoDup; [exact reading_key_eqb_eq | exact Hu].
Qed.
End StoreInsert.

(** Two concrete batches: the value 2.5 offered later for the key of a
    stored 1.5 is dropped, inside a batch and across batches. *)
Example duplicate_reading_example :
  let r1 := Reading.mk "m-001" "temperature" 1000 1.5%float in
  let r2 := Reading.mk "m-001" "temperature" 1000 2.5%float in
  let stored := mkStore (machines startup_store) (metrics startup_store)
                        [r1] [r1] in
  write_rows spec_engine false [r1; r2] startup_store = Ok stored
  /\ write_rows spec_engine false [r2] stored = Ok stored.
Proof. split; reflexivity. Qed.

Lemma duplicate_reading_keeps_first_witness :
  let r1 := Reading.mk "m-001" "temperature" 1000 1.5%float in
  let r2 := Reading.mk "m-001" "temperature" 1000 2.5%float in
  let r3 := Reading.mk "m-001" "temperature" 3000 9.5%float in
  exists conn' added,
    write_rows spec_engine false [r1; r2; r3] example_store = Ok conn'
    /\ readings conn' = readings example_store ++ added
    /\ NoDup (map Reading.key added)
    /\ Forall (fun r =>
                 ~ In (Reading.key r) (map Reading.key (readings example_store))
                 /\ first_of_its_key Reading.key r [r1; r2; r3]) added
    /\ (forall r, In r [r1; r2; r3] ->
          In (Reading.key r) (map Reading.key (readings conn')))
    /\ (unique_keys (readings example_store) -> unique_keys (readings conn')).
Proof.
  intros r1 r2 r3.
  exact (duplicate_reading_keeps_first spec_engine [r1; r2; r3] example_store).
Defined.

Section Tick.
Variable sin : float -> float.
Variables machine_phase metric_phase : string -> float.

Lemma tick_rows_cons (m : string) (machines metrics : list string) (it : iteration) :
  tick_rows sin machine_phase metric_phase (m :: machines) metrics it =
  tick_rows sin machine_phase metric_phase [m] metrics it
  ++ tick_rows sin machine_phase metric_phase machines metrics it.
Proof. unfold tick_rows. simpl. now rewrite app_nil_r. Qed.

Lemma tick_rows_In (machines metrics : list string) (it : iteration) (r : Reading.t) :
  In r (tick_rows sin machine_phase metric_phase machines metrics it) ->
  In (Reading.machine_id r) machines
  /\ In (Reading.metric_key r) metrics
  /\ Reading.ts_ms r = now_ms it.
Proof.
  unfold tick_rows. intros H. apply in_flat_map in H.
  destruct H as [m [Hm H]]. apply in_map_iff in H.
  destruct H as [k [<- Hk]]. simpl. auto.
Qed.

(** C8.  The rows assembled in one pass of the loop are one row per
    (machine, metric) pair, machines outermost, and every one of them carries
    the [now_ms] read at the top of the pass. *)
Theorem tick_rows_share_ts_ms (machines metrics : list string) (it : iteration) :
  let rows := tick_rows sin machine_phase metric_phase machines metrics it in
  Forall (fun r => Reading.ts_ms r = now_ms it) rows
  /\ map (fun r => (Reading.machine_id r, Reading.metric_key r)) rows
     = list_prod machines metrics.
Proof.
  split.
  - apply Forall_forall. intros r Hr. now apply tick_rows_In in Hr.
  - unfold tick_rows. induction machines as [|m ms IH]; simpl; [reflexivity|].
    rewrite map_app, IH, map_map. reflexivity.
Qed.
End Tick.

(* ================================================================= *)
(** ** start, stop, is_running *)

(** C7, counterexample.  [start] on a running simulator need not leave
    one worker.  After [start], a [stop] whose wait ran out and a second
    [start], the simulator runs with two live workers, and a further
    [start] leaves the two; after [start] and the end of the worker, whose
    write raised, it reports running with no live worker, and a further
    [start] leaves none. *)
Lemma start_on_running_need_not_leave_one_worker :
  let two := do_calls [CallStart; CallStop false; CallStart] __init__ in
  let none := do_calls [CallStart; WorkerEnds 0] __init__ in
  is_running two = true /\ live_workers (start two) = [0%nat; 1%nat]
  /\ is_running none = true /\ live_workers (start none) = [].
Proof. repeat split. Qed.

(** C7, amended.  [start] on a running simulator and [stop] on a stopped
    one change nothing, so [start] launches no further worker and the live
    workers stay as they were; [stop] then returns without calling [join].
    After [start] the simulator reports running, after [stop] it reports
    stopped, and two [start]s on a stopped simulator without workers leave
    one worker. *)
Theorem start_stop_idempotent (self : TelemetrySimulator.t) :
  (is_running self = true -> start self = self)
  /\ (is_running self = false ->
      forall b, stop b self = (self, false))
  /\ is_running (start self) = true
  /\ (forall b, is_running (fst (stop b self)) = false)
  /\ (is_running self = false -> live_workers self = [] ->
      live_workers (start (start self)) = [next_ident self]).
Proof.
  unfold is_running, start, stop. destruct self as [th st run iv ws nx]; simpl.
  repeat split.
  - now intros ->.
  - now intros ->.
  - now destruct run.
  - intros b. destruct run; simpl; [|reflexivity].
    destruct th; [destruct b|]; reflexivity.
  - intros -> ->. reflexivity.
Qed.

Lemma start_stop_idempotent_witness :
  is_running (start __init__) = true
  /\ start (start __init__) = start __init__
  /\ stop true __init__ = (__init__, false)
  /\ live_workers (start (start __init__)) = [0%nat].
Proof.
  destruct (start_stop_idempotent (start __init__)) as [H1 _].
  destruct (start_stop_idempotent __init__) as [_ [H2 [H3 [_ H5]]]].
  split; [exact H3|]. split; [exact (H1 H3)|].
  split; [exact (H2 eq_refl true) | exact (H5 eq_refl eq_refl)].
Defined.

(* ================================================================= *)
(** ** What the worker loop changes in the store *)

Lemma machine_exists_iff (conn : Store) (m : string) :
  machine_exists conn m = true <-> In m (map Machine.machine_id (machines conn)).
Proof.
  unfold machine_exists. rewrite existsb_exists, in_map_iff.
  split; intros [x [H1 H2]]; exists x.
  - apply String.eqb_eq in H2. auto.
  - split; [exact H2 | now apply String.eqb_eq].
Qed.

Section LoopFacts.
Variable eng : engine.
Variable sin : float -> float.
Variables machine_phase metric_phase : string -> float.
Variables ms ks : list string.

Lemma write_rows_frame (b : bool) (rows : list Reading.t) (conn conn' : Store) :
  write_rows eng b rows conn = Ok conn' ->
  machines conn' = machines conn
  /\ metrics conn' = metrics conn
  /\ forall r, In r (readings conn') -> In r (readings conn) \/ In r rows.
Proof.
  intros H. apply write_rows_Ok_inv in H. destruct H as [_ [_ ->]].
  destruct (executemany_readings_catalog eng rows conn) as [-> ->].
  repeat split. intros r. rewrite executemany_readings_readings.
  apply executemany_In.
Qed.

Lemma loop_frame (trace : list iteration) :
  forall conn,
    let conn' := fst (loop eng sin machine_phase metric_phase ms ks trace conn) in
    machines conn' = machines conn
    /\ metrics conn' = metrics conn
    /\ (unique_keys (readings conn) -> unique_keys (readings conn'))
    /\ forall r, In r (readings conn') ->
         In r (readings conn) \/ In (Reading.machine_id r) ms.
Proof.
  induction trace as [|it rest IH]; intros conn; simpl.
  - repeat split; auto.
  - destruct (stop_is_set it); simpl; [repeat split; auto|].
    destruct (write_rows eng (write_raises it) _ conn) as [conn1|e] eqn:W; simpl;
      [|repeat split; auto].
    destruct (write_rows_frame _ _ _ _ W) as [F1 [F2 F4]].
    destruct (IH conn1) as [G1 [G2 [G4 G5]]].
    rewrite G1, G2, F1, F2. repeat split.
    + intros Hu. apply G4. eapply write_rows_unique_keys; eassumption.
    + intros r Hr. destruct (G5 r Hr) as [H | H]; [|now right].
      destruct (F4 r H) as [H' | H']; [now left|].
      right. now apply tick_rows_In in H'.
Qed.
End LoopFacts.

Lemma reachable_invariant (eng : engine) (conn : Store) :
  select_complete eng ->
  reachable eng conn ->
  machines conn = machines startup_store
  /\ unique_keys (readings conn)
  /\ readings_in_catalog conn.
Proof.
  intros [Hsel _].
  induction 1 as [|sin mp kp trace conn Hr [I1 [I3 I4]]|conn Hr [I1 [I3 I4]]].
  - repeat split; [constructor | intros r []].
  - unfold _run_loop.
    destruct (loop_frame eng sin mp kp (select_machines eng (machines conn))
                (select_metrics eng (metrics conn)) trace conn)
      as [F1 [_ [F4 F5]]].
    repeat split.
    + now rewrite F1.
    + auto.
    + intros r Hin. apply machine_exists_iff. rewrite F1.
      destruct (F5 r Hin) as [H | H].
      * apply machine_exists_iff. now apply I4.
      * apply (Permutation_in _ (Hsel (machines conn))). exact H.
  - assert (E : machines (seed conn) = machines startup_store)
      by (unfold seed; cbn [machines]; rewrite I1; reflexivity).
    repeat split; [exact E | exact I3 |].
    intros r Hin. apply machine_exists_iff. rewrite E, <- I1.
    apply machine_exists_iff. now apply I4.
Qed.

Lemma Permutation_filter {A : Type} (p : A -> bool) (l l' : list A) :
  Permutation l l' -> Permutation (filter p l) (filter p l').
Proof.
  induction 1 as [|x l l' _ IH|x y l|l l' l'' _ IH1 _ IH2]; simpl.
  - constructor.
  - destruct (p x); [now constructor | exact IH].
  - destruct (p x), (p y); try reflexivity. constructor.
  - now transitivity (filter p l').
Qed.

Lemma filter_all {A : Type} (f : A -> bool) (l : list A) :
  Forall (fun x => f x = true) l -> filter f l = l.
Proof.
  induction 1 as [|a l Ha _ IH]; simpl; [reflexivity|].
  now rewrite Ha, IH.
Qed.

Lemma filter_none {A : Type} (f : A -> bool) (l : list A) :
  (forall x, In x l -> f x = false) -> filter f l = [].
Proof.
  induction l as [|a l IH]; intros H; simpl; [reflexivity|].
  rewrite (H a (or_introl eq_refl)). apply IH. intros x Hx. apply H. now right.
Qed.

(* ================================================================= *)
(** ** GET /latest *)

Lemma same_pair_iff (a b : Reading.t) :
  same_pair a b = true <->
  Reading.machine_id a = Reading.machine_id b
  /\ Reading.metric_key a = Reading.metric_key b.
Proof. unfold same_pair. now rewrite andb_true_iff, !String.eqb_eq. Qed.

Lemma in_latest_view (rs : list Reading.t) (r : Reading.t) :
  In r (latest_view rs) <->
  In r rs
  /\ forall r', In r' rs ->
       Reading.machine_id r' = Reading.machine_id r ->
       Reading.metric_key r' = Reading.metric_key r ->
       Reading.ts_ms r' <= Reading.ts_ms r.
Proof.
  unfold latest_view. rewrite filter_In, forallb_forall. split.
  - intros [Hin H]. split; [exact Hin|]. intros r' Hr' Hm Hk.
    specialize (H r' Hr'). apply orb_true_iff in H. destruct H as [H | H].
    + apply negb_true_iff in H.
      assert (same_pair r' r = true) by now apply same_pair_iff.
      congruence.
    + now apply Z.leb_le.
  - intros [Hin H]. split; [exact Hin|]. intros r' Hr'.
    destruct (same_pair r' r) eqn:E; [|reflexivity]. simpl.
    apply same_pair_iff in E. destruct E as [Hm Hk].
    apply Z.leb_le. now apply H.
Qed.

(** Among the readings of a pair that has one, one has the largest
    [ts_ms]. *)
Lemma latest_of_pair_exists (m k : string) (rs : list Reading.t) :
  (exists r, In r rs /\ Reading.machine_id r = m /\ Reading.metric_key r = k) ->
  exists top,
    In top rs /\ Reading.machine_id top = m /\ Reading.metric_key top = k
    /\ forall r', In r' rs -> Reading.machine_id r' = m ->
         Reading.metric_key r' = k -> Reading.ts_ms r' <= Reading.ts_ms top.
Proof.
  induction rs as [|a rs IH]; intros [r [Hin [Hm Hk]]]; [destruct Hin|].
  set (p := fun x => String.eqb (Reading.machine_id x) m
                     && String.eqb (Reading.metric_key x) k).
  assert (Hp : forall x, p x = true <->
                 Reading.machine_id x = m /\ Reading.metric_key x = k).
  { intros x. unfold p. now rewrite andb_true_iff, !String.eqb_eq. }
  destruct (existsb p rs) eqn:Ex.
  - apply existsb_exists in Ex. destruct Ex as [x [Hx Hpx]].
    apply Hp in Hpx. destruct Hpx as [Hxm Hxk].
    destruct (IH (ex_intro _ x (conj Hx (conj Hxm Hxk))))
      as [top [Ht [Htm [Htk Hmax]]]].
    destruct (p a) eqn:Ea.
    + apply Hp in Ea. destruct Ea as [Ham Hak].
      destruct (Z.le_gt_cases (Reading.ts_ms a) (Reading.ts_ms top)) as [Hle | Hgt].
      * exists top. repeat split; [now right | exact Htm | exact Htk |].
        intros r' [<- | Hr'] Hm' Hk'; [exact Hle | now apply Hmax].
      * exists a. repeat split; [now left | exact Ham | exact Hak |].
        intros r' [<- | Hr'] Hm' Hk'; [lia|].
        specialize (Hmax r' Hr' Hm' Hk'). lia.
    + exists top. repeat split; [now right | exact Htm | exact Htk |].
      intros r' [<- | Hr'] Hm' Hk'; [|now apply Hmax].
      assert (p a = true) by now apply Hp. congruence.
  - assert (Hnone : forall x, In x rs -> p x = false).
    { intros x Hx. destruct (p x) eqn:E; [|reflexivity].
      assert (existsb p rs = true)
        by (apply existsb_exists; exists x; now split).
      congruence. }
    destruct Hin as [<- | Hin].
    + exists a. repeat split; [now left | exact Hm | exact Hk |].
      intros r' [<- | Hr'] Hm' Hk'; [lia|].
      assert (p r' = true) by now apply Hp.
      rewrite (Hnone r' Hr') in H. discriminate.
    + assert (p r = true) by now apply Hp.
      rewrite (Hnone r Hin) in H. discriminate.
Qed.

Lemma same_image_same_element {A B : Type} (f : A -> B) (l : list A) (x y : A) :
  NoDup (map f l) -> In x l -> In y l -> f x = f y -> x = y.
Proof.
  induction l as [|a l IH]; simpl; intros Hnd Hx Hy E; [destruct Hx|].
  inversion Hnd as [|z zs Hz Hnd']; subst.
  destruct Hx as [-> | Hx], Hy as [-> | Hy]; auto.
  - exfalso. apply Hz. rewrite E. now apply in_map.
  - exfalso. apply Hz. rewrite <- E. now apply in_map.
Qed.

Lemma all_equal_singleton {A : Type} (l : list A) (a : A) :
  NoDup l -> In a l -> (forall x, In x l -> x = a) -> l = [a].
Proof.
  intros Hnd Hin Hall. destruct l as [|x l]; [destruct Hin|].
  assert (x = a) by (apply Hall; now left). subst x.
  destruct l as [|y l]; [reflexivity|].
  exfalso. inversion Hnd as [|z zs Hz _]; subst. apply Hz.
  assert (y = a) by (apply Hall; right; now left). subst y. now left.
Qed.

(** With unique keys, the rows of a pair in the max-timestamp query are
    one row: the reading of the pair with the largest [ts_ms]. *)
Lemma latest_view_of_pair (rs : list Reading.t) (top : Reading.t) :
  unique_keys rs ->
  In top rs ->
  (forall r', In r' rs ->
     Reading.machine_id r' = Reading.machine_id top ->
     Reading.metric_key r' = Reading.metric_key top ->
     Reading.ts_ms r' <= Reading.ts_ms top) ->
  filter (fun r => String.eqb (Reading.metric_key r) (Reading.metric_key top))
    (filter (fun r => String.eqb (Reading.machine_id r) (Reading.machine_id top))
       (latest_view rs))
  = [top].
Proof.
  intros Hu Hin Hmax. apply all_equal_singleton.
  - do 2 apply NoDup_filter. unfold latest_view. apply NoDup_filter.
    exact (NoDup_map_inv _ _ Hu).
  - apply filter_In. split; [|apply String.eqb_refl].
    apply filter_In. split; [|apply String.eqb_refl].
    apply in_latest_view. now split.
  - intros x Hx. apply filter_In in Hx. destruct Hx as [Hx Hk].
    apply filter_In in Hx. destruct Hx as [Hx Hm].
    apply String.eqb_eq in Hk, Hm.
    apply in_latest_view in Hx. destruct Hx as [Hxin Hxmax].
    apply (same_image_same_element Reading.key rs); [exact Hu | exact Hxin | exact Hin |].
    unfold Reading.key. rewrite Hm, Hk. f_equal.
    specialize (Hmax x Hxin Hm Hk).
    specialize (Hxmax top Hin (eq_sym Hm) (eq_sym Hk)). lia.
Qed.

Section LatestFollowsReadings.
Variable eng : engine.
Hypothesis Hon : on_insert eng = spec_on_insert.
Variable sin : float -> float.
Variables machine_phase metric_phase : string -> float.

Lemma insert_reading_consistent (r : Reading.t) (conn : Store) :
  latest_consistent conn -> latest_consistent (insert_reading eng r conn).
Proof.
  unfold insert_reading, latest_consistent.
  destruct (existsb _ (readings conn)); [auto|]. intros _. simpl.
  now rewrite Hon.
Qed.

Lemma executemany_readings_consistent (rows : list Reading.t) :
  forall conn,
    latest_consistent conn ->
    latest_consistent (executemany_readings eng rows conn).
Proof.
  induction rows as [|r rows IH]; intros conn Hc; [exact Hc|].
  rewrite executemany_readings_cons. apply IH.
  now apply insert_reading_consistent.
Qed.

Lemma loop_consistent (ms ks : list string) (trace : list iteration) :
  forall conn,
    latest_consistent conn ->
    latest_consistent
      (fst (loop eng sin machine_phase metric_phase ms ks trace conn)).
Proof.
  induction trace as [|it rest IH]; intros conn Hc; simpl; [exact Hc|].
  destruct (stop_is_set it); [exact Hc|].
  destruct (write_rows eng (write_raises it) _ conn) as [conn1|e] eqn:W;
    [|exact Hc].
  apply IH. apply write_rows_Ok_inv in W. destruct W as [_ [_ ->]].
  now apply executemany_readings_consistent.
Qed.

End LatestFollowsReadings.

Lemma reachable_consistent (eng : engine) (conn : Store) :
  on_insert eng = spec_on_insert ->
  reachable eng conn -> latest_consistent conn.
Proof.
  intros Hon.
  induction 1 as [|sin mp kp trace conn Hr IH|conn Hr IH].
  - reflexivity.
  - unfold _run_loop. now apply loop_consistent.
  - exact IH.
Qed.

(** C1.  Let the database keep [latest_readings] as the spec's
    max-timestamp query on [readings], and let its [SELECT]s on the catalog
    return every id.  On every store the server can hold, for every reading
    [r] of the store, [get_latest] for the machine of [r] returns exactly one
    row for the metric of [r], and it is the reading of that machine and
    metric with the largest [ts_ms]. *)
Theorem get_latest_returns_max_ts_reading
    (eng : engine) (conn : Store) (r : Reading.t) :
  on_insert eng = spec_on_insert ->
  select_complete eng ->
  reachable eng conn ->
  In r (readings conn) ->
  exists top body,
    get_latest conn (Reading.machine_id r) = Ok body
    /\ In top (readings conn)
    /\ Reading.machine_id top = Reading.machine_id r
    /\ Reading.metric_key top = Reading.metric_key r
    /\ (forall r', In r' (readings conn) ->
          Reading.machine_id r' = Reading.machine_id r ->
          Reading.metric_key r' = Reading.metric_key r ->
          Reading.ts_ms r' <= Reading.ts_ms top)
    /\ filter (fun x => String.eqb (LatestReading.metric_key x)
                                   (Reading.metric_key r)) body
       = [ LatestReading.mk (Reading.machine_id r) (Reading.metric_key r)
             (Reading.ts_ms top) (Reading.value top) ].
Proof.
  intros Hon Hsel Hreach Hin.
  destruct (reachable_invariant eng conn Hsel Hreach) as [_ [Hu Hcat]].
  pose proof (reachable_consistent eng conn Hon Hreach) as Hc.
  pose proof (Hcat r Hin) as Hex.
  destruct (latest_of_pair_exists (Reading.machine_id r) (Reading.metric_key r)
              (readings conn) (ex_intro _ r (conj Hin (conj eq_refl eq_refl))))
    as [top [Ht [Htm [Htk Hmax]]]].
  exists top. eexists. split; [unfold get_latest; rewrite Hex; reflexivity|].
  repeat split; try assumption.
  rewrite filter_map_swap. cbn [to_LatestReading LatestReading.metric_key].
  set (sel := filter (fun x => String.eqb (Reading.machine_id x)
                                          (Reading.machine_id r))
                     (latest_readings conn)).
  assert (Hone : filter (fun x => String.eqb (Reading.metric_key x)
                                             (Reading.metric_key r)) sel
                 = [top]).
  { unfold sel. rewrite Hc, <- Htm, <- Htk.
    apply latest_view_of_pair; [exact Hu | exact Ht |].
    intros r' Hr' Hm' Hk'. apply Hmax; congruence. }
  assert (Hp : Permutation [top]
                 (filter (fun x => String.eqb (Reading.metric_key x)
                                              (Reading.metric_key r))
                         (MetricKeySort.sort sel))).
  { rewrite <- Hone. apply Permutation_filter, MetricKeySort.Permuted_sort. }
  apply Permutation_length_1_inv in Hp. rewrite Hp. simpl.
  unfold to_LatestReading. now rewrite Htm, Htk.
Qed.

Lemma spec_engine_select_complete : select_complete spec_engine.
Proof. split; intros tbl; reflexivity. Qed.

(** Two passes of the loop on a fresh database, then a restart of the
    server: the first pressure reading of "m-001" is not the latest. *)
Lemma get_latest_returns_max_ts_reading_witness :
  let it1 := mkIteration false 1000 1.0%float (fun _ _ => 0.25%float) false in
  let it2 := mkIteration false 1500 1.5%float (fun _ _ => 0.5%float) false in
  let out := seed (fst (_run_loop spec_engine (fun x => x) (fun _ => 0%float)
                          (fun _ => 0%float) [it1; it2] startup_store)) in
  exists top body,
    get_latest out "m-001" = Ok body
    /\ In top (readings out)
    /\ Reading.machine_id top = "m-001"
    /\ Reading.metric_key top = "pressure"
    /\ (forall r', In r' (readings out) ->
          Reading.machine_id r' = "m-001" ->
          Reading.metric_key r' = "pressure" ->
          Reading.ts_ms r' <= Reading.ts_ms top)
    /\ filter (fun x => String.eqb (LatestReading.metric_key x) "pressure") body
       = [ LatestReading.mk "m-001" "pressure"
             (Reading.ts_ms top) (Reading.value top) ].
Proof.
  intros it1 it2 out.
  apply (get_latest_returns_max_ts_reading spec_engine out
           (Reading.mk "m-001" "pressure" 1000
              (_value_for (fun x => x) 0.25%float "pressure" 1.0%float
                 0%float 0%float))).
  - reflexivity.
  - split; intros tbl; reflexivity.
  - apply reach_restart, reach_run, reach_startup.
  - vm_compute. right. left. reflexivity.
Defined.

(** The run of the witness: the row that [get_latest] returns for a metric
    is the one of the later pass. *)
Example get_latest_after_two_passes :
  let it1 := mkIteration false 1000 1.0%float (fun _ _ => 0.25%float) false in
  let it2 := mkIteration false 1500 1.5%float (fun _ _ => 0.5%float) false in
  let out := fst (_run_loop spec_engine (fun x => x) (fun _ => 0%float)
                    (fun _ => 0%float) [it1; it2] startup_store) in
  option_map (map LatestReading.ts_ms)
    (match get_latest out "m-001" with Ok body => Some body | Raise _ => None end)
  = Some [1500; 1500; 1500].
Proof. vm_compute. reflexivity. Qed.

(** C10.  For a machine of the catalog with no row in the table that
    [get_latest] reads, the answer is the empty list; and [get_latest]
    raises only for a machine that is not in the catalog. *)
Theorem get_latest_known_machine_without_rows (conn : Store) (machine_id : string) :
  machine_exists conn machine_id = true ->
  (forall r, In r (latest_readings conn) -> Reading.machine_id r <> machine_id) ->
  get_latest conn machine_id = Ok []
  /\ forall conn' e, get_latest conn' machine_id = Raise e ->
       machine_exists conn' machine_id = false.
Proof.
  intros Hex Hnone. split.
  - unfold get_latest. rewrite Hex. simpl. rewrite filter_none; [reflexivity|].
    intros r Hr. apply String.eqb_neq. now apply Hnone.
  - intros conn' e. unfold get_latest.
    destruct (machine_exists conn' machine_id); simpl; [discriminate | reflexivity].
Qed.

Lemma get_latest_known_machine_without_rows_witness :
  machine_exists example_store "m-002" = true
  /\ get_latest example_store "m-002" = Ok [].
Proof.
  split; [reflexivity|].
  refine (proj1 (get_latest_known_machine_without_rows example_store "m-002" _ _)).
  - reflexivity.
  - simpl. intros r [<- | []]. discriminate.
Defined.

(* ================================================================= *)
(** ** Unknown machines *)

(** C5, counterexample.  For a machine that is not in the catalog
    [get_history] returns the empty list and raises nothing. *)
Lemma get_history_unknown_machine_is_ok :
  machine_exists startup_store "does-not-exist" = false
  /\ get_history startup_store "does-not-exist" "temperature" None None None
     = Ok []
  /\ forall code detail,
       get_history startup_store "does-not-exist" "temperature" None None None
       <> Raise (HTTPException code detail).
Proof. repeat split. intros code detail H. discriminate H. Qed.

(** C5, amended.  For a machine that is not in the catalog, [get_latest]
    raises the 404 "Unknown machine_id" and returns no rows.  [get_history]
    does not look the machine up: its limit is validated as for any other
    request; with a valid limit and bounds that sqlite3 can bind it returns
    the empty list, the store holding readings of catalog machines only;
    with a bound outside the signed 64-bit range it raises
    [OverflowError]. *)
Theorem unknown_machine_latest_404_history_empty
    (conn : Store) (machine_id metric_key : string)
    (start_ms end_ms limit : option Z) :
  machine_exists conn machine_id = false ->
  readings_in_catalog conn ->
  get_latest conn machine_id = Raise (HTTPException 404 "Unknown machine_id")
  /\ get_history conn machine_id metric_key start_ms end_ms limit
     = match validate_limit limit with
       | Ok _ =>
           if binds start_ms && binds end_ms then Ok []
           else Raise OverflowError
       | Raise e => Raise e
       end.
Proof.
  intros Hun Hcat. split.
  - unfold get_latest. now rewrite Hun.
  - unfold get_history. destruct (validate_limit limit) as [n|e]; [|reflexivity].
    destruct (binds start_ms && binds end_ms); [|reflexivity].
    rewrite filter_none; [now rewrite firstn_nil|].
    intros r Hr. unfold history_where.
    destruct (String.eqb_spec (Reading.machine_id r) machine_id) as [E|E];
      [|reflexivity].
    apply Hcat in Hr. congruence.
Qed.

Lemma unknown_machine_latest_404_history_empty_witness :
  machine_exists example_store "does-not-exist" = false
  /\ get_latest example_store "does-not-exist"
     = Raise (HTTPException 404 "Unknown machine_id")
  /\ get_history example_store "does-not-exist" "temperature"
       (Some 1000) None (Some 2)
     = Ok []
  /\ get_history example_store "does-not-exist" "temperature"
       (Some (2 ^ 63)) None (Some 2)
     = Raise OverflowError.
Proof.
  assert (Hcat : readings_in_catalog example_store).
  { intros r Hr. simpl in Hr.
    repeat (destruct Hr as [<- | Hr]; [reflexivity|]). destruct Hr. }
  split; [reflexivity|]. split; [|split].
  - exact (proj1 (unknown_machine_latest_404_history_empty example_store
                    "does-not-exist" "temperature" None None None eq_refl Hcat)).
  - exact (proj2 (unknown_machine_latest_404_history_empty example_store
                    "does-not-exist" "temperature" (Some 1000) None (Some 2)
                    eq_refl Hcat)).
  - exact (proj2 (unknown_machine_latest_404_history_empty example_store
                    "does-not-exist" "temperature" (Some (2 ^ 63)) None (Some 2)
                    eq_refl Hcat)).
Defined.

(* ================================================================= *)
(** ** A write that raises inside the loop *)

(** C4, counterexample.  Were the loop to go on after a failed write, a
    run whose first write raises would end like the run without that pass;
    it does not. *)
Lemma run_loop_does_not_survive_write_fault :
  ~ (forall eng sin machine_phase metric_phase it rest conn,
       stop_is_set it = false -> write_raises it = true ->
       _run_loop eng sin machine_phase metric_phase (it :: rest) conn
       = _run_loop eng sin machine_phase metric_phase rest conn).
Proof.
  intros H.
  pose (z := fun _ : string => 0%float).
  pose (it1 := mkIteration false 1000 1.0%float (fun _ _ => 0%float) true).
  pose (it2 := mkIteration false 1500 1.5%float (fun _ _ => 0%float) false).
  specialize (H spec_engine (fun x => x) z z it1 [it2] startup_store
                eq_refl eq_refl).
  apply (f_equal snd) in H. vm_compute in H. discriminate H.
Qed.

(** C4, amended.  When the write of a pass raises, the transaction is
    rolled back, so the store is as before the pass and its readings are
    lost; the exception leaves [_run_loop], which ends there: no later pass
    of the trace runs. *)
Theorem run_loop_dies_on_write_fault
    (eng : engine)
    (sin : float -> float) (machine_phase metric_phase : string -> float)
    (it : iteration) (rest : list iteration) (conn : Store) :
  stop_is_set it = false -> write_raises it = true ->
  _run_loop eng sin machine_phase metric_phase (it :: rest) conn
  = (conn, Died OperationalError).
Proof.
  intros Hs Hw. unfold _run_loop. simpl. now rewrite Hs, Hw.
Qed.

Lemma run_loop_dies_on_write_fault_witness :
  let it1 := mkIteration false 1000 1.0%float (fun _ _ => 0%float) true in
  let it2 := mkIteration false 1500 1.5%float (fun _ _ => 0%float) false in
  _run_loop spec_engine (fun x => x) (fun _ => 0%float) (fun _ => 0%float)
            [it1; it2] startup_store
  = (startup_store, Died OperationalError).
Proof.
  intros it1 it2.
  exact (run_loop_dies_on_write_fault spec_engine (fun x => x)
           (fun _ => 0%float) (fun _ => 0%float) it1 [it2] startup_store
           eq_refl eq_refl).
Defined.

(* ================================================================= *)
(** ** GET /history *)

Section SortedFacts.
Context {A : Type}.

Lemma StronglySorted_app_inv (R : A -> A -> Prop) (l1 l2 : list A) :
  StronglySorted R (l1 ++ l2) ->
  StronglySorted R l1 /\ StronglySorted R l2
  /\ Forall (fun x => Forall (R x) l2) l1.
Proof.
  induction l1 as [|a l1 IH]; simpl; intros H.
  - repeat split; [constructor | exact H | constructor].
  - apply StronglySorted_inv in H. destruct H as [H Ha].
    destruct (IH H) as [S1 [S2 F]].
    apply Forall_app in Ha. destruct Ha as [Ha1 Ha2].
    repeat split; [now constructor | exact S2 | now constructor].
Qed.

Lemma StronglySorted_snoc (R : A -> A -> Prop) (l : list A) (a : A) :
  StronglySorted R l -> Forall (fun x => R x a) l ->
  StronglySorted R (l ++ [a]).
Proof.
  induction l as [|b l IH]; simpl; intros Hs Hf.
  - repeat constructor.
  - apply StronglySorted_inv in Hs. destruct Hs as [Hs Hb].
    inversion Hf; subst. constructor; [now apply IH|].
    apply Forall_app. split; [exact Hb | now constructor].
Qed.

Lemma StronglySorted_rev (R : A -> A -> Prop) (l : list A) :
  StronglySorted R l -> StronglySorted (fun x y => R y x) (rev l).
Proof.
  induction 1 as [|a l Hs IH Ha]; simpl; [constructor|].
  apply StronglySorted_snoc; [exact IH|].
  now apply Forall_rev.
Qed.
End SortedFacts.

Lemma TsDesc_transitive :
  Transitive (fun a b : Reading.t => is_true (TsDescOrder.leb a b)).
Proof.
  intros a b c. unfold TsDescOrder.leb, is_true. rewrite !Z.leb_le. lia.
Qed.

Lemma history_where_spec (m k : string) (a b : option Z) (r : Reading.t) :
  history_where m k a b r = true <->
  Reading.machine_id r = m /\ Reading.metric_key r = k
  /\ within_bounds a b (Reading.ts_ms r).
Proof.
  unfold history_where, within_bounds.
  rewrite !andb_true_iff, !String.eqb_eq.
  destruct a as [lo|], b as [hi|]; rewrite ?Z.leb_le; intuition.
Qed.

Lemma history_matches_split (conn : Store) (m k : string) (a b : option Z)
    (wanted others : list Reading.t) :
  Permutation (readings conn) (wanted ++ others) ->
  Forall (requested m k a b) wanted ->
  Forall (fun r => ~ requested m k a b r) others ->
  Permutation (history_matches conn m k a b) wanted.
Proof.
  intros Hp Hw Ho. unfold history_matches.
  rewrite (Permutation_filter _ _ _ Hp), filter_app.
  rewrite filter_all, filter_none; [now rewrite app_nil_r | |].
  - intros r Hr. rewrite Forall_forall in Ho. specialize (Ho r Hr).
    destruct (history_where m k a b r) eqn:E; [|reflexivity].
    exfalso. apply Ho. now apply history_where_spec.
  - eapply Forall_impl; [|exact Hw]. intros r Hr. now apply history_where_spec.
Qed.

(** C2, counterexample.  Five stored readings of the pair lie above the
    lower bound [- 2 ^ 63 - 1], which sqlite3 cannot bind: the request has
    a valid limit and raises [OverflowError], so it has no result. *)
Lemma get_history_unbindable_bound_has_no_result :
  let start_ms := Some (- 2 ^ 63 - 1) in
  validate_limit (Some 2) = Ok 2
  /\ List.length
       (filter (fun r => (Reading.machine_id r =? "m-001")%string
                         && (Reading.metric_key r =? "temperature")%string
                         && (- 2 ^ 63 - 1 <=? Reading.ts_ms r))
               (readings example_store)) = 5%nat
  /\ get_history example_store "m-001" "temperature" start_ms None (Some 2)
     = Raise OverflowError
  /\ forall points,
       get_history example_store "m-001" "temperature" start_ms None (Some 2)
       <> Ok points.
Proof.
  repeat split. intros points H. vm_compute in H. discriminate H.
Qed.

(** C2, amended.  Split the stored readings in any way into those the
    request asks for (the machine, the metric, [ts_ms] within the inclusive bounds),
    [wanted], and the others.  With a valid limit [n] and bounds that
    sqlite3 can bind, [get_history] returns the points, [ts_ms] and [value],
    of a list [sel] such that [wanted] is [sel] together with a remainder
    [rest]: [sel] has at most [n] elements, indeed the minimum of [n] and
    the number of wanted readings; it ascends by [ts_ms]; and every reading
    of [rest] has a [ts_ms] no larger than any in [sel].  So when more than
    [n] readings match, the answer is the [n] most recent.  With a bound
    outside the signed 64-bit range the request raises [OverflowError]. *)
Theorem get_history_most_recent_ascending
    (conn : Store) (machine_id metric_key : string)
    (start_ms end_ms limit : option Z) (n : Z)
    (wanted others : list Reading.t) :
  validate_limit limit = Ok n ->
  Permutation (readings conn) (wanted ++ others) ->
  Forall (requested machine_id metric_key start_ms end_ms) wanted ->
  Forall (fun r => ~ requested machine_id metric_key start_ms end_ms r) others ->
  if binds start_ms && binds end_ms then
    exists sel rest,
      get_history conn machine_id metric_key start_ms end_ms limit
        = Ok (map (fun r => ReadingPoint.mk (Reading.ts_ms r) (Reading.value r))
                  sel)
      /\ Permutation wanted (sel ++ rest)
      /\ Z.of_nat (List.length sel) <= n
      /\ List.length sel = Nat.min (Z.to_nat n) (List.length wanted)
      /\ StronglySorted ts_le sel
      /\ Forall (fun x => Forall (fun y => ts_le x y) sel) rest
  else
    get_history conn machine_id metric_key start_ms end_ms limit
    = Raise OverflowError.
Proof.
  intros Hv Hp Hw Ho.
  pose proof (history_matches_split _ _ _ _ _ _ _ Hp Hw Ho) as Hm.
  unfold get_history. rewrite Hv.
  destruct (binds start_ms && binds end_ms); [|reflexivity].
  fold (history_matches conn machine_id metric_key start_ms end_ms).
  set (matches := history_matches conn machine_id metric_key start_ms end_ms) in *.
  set (sorted := TsDescSort.sort matches).
  assert (Hn : 1 <= n <= 5000).
  { unfold validate_limit in Hv.
    destruct ((1 <=? _) && (_ <=? 5000)) eqn:E; [|discriminate].
    inversion Hv; subst. apply andb_true_iff in E. lia. }
  assert (Hperm : Permutation matches sorted) by apply TsDescSort.Permuted_sort.
  assert (Hsort : StronglySorted (fun a b => is_true (TsDescOrder.leb a b)) sorted)
    by (apply TsDescSort.StronglySorted_sort, TsDesc_transitive).
  rewrite <- (firstn_skipn (Z.to_nat n) sorted) in Hsort.
  apply StronglySorted_app_inv in Hsort. destruct Hsort as [S1 [_ F]].
  exists (rev (firstn (Z.to_nat n) sorted)), (skipn (Z.to_nat n) sorted).
  repeat split.
  - now rewrite map_rev.
  - rewrite <- Hm, Hperm. rewrite <- (firstn_skipn (Z.to_nat n) sorted) at 1.
    apply Permutation_app_tail, Permutation_rev.
  - rewrite length_rev, length_firstn. lia.
  - rewrite length_rev, length_firstn.
    now rewrite <- (Permutation_length Hm), (Permutation_length Hperm).
  - apply StronglySorted_rev in S1.
    eapply StronglySorted_ind with (P := StronglySorted ts_le) in S1;
      [exact S1 | constructor |].
    intros x l _ IH Hx. constructor; [exact IH|].
    eapply Forall_impl; [|exact Hx]. intros y Hy.
    unfold TsDescOrder.leb, is_true in Hy. apply Z.leb_le in Hy. exact Hy.
  - apply Forall_forall. intros x Hx. apply Forall_forall. intros y Hy.
    apply in_rev in Hy. rewrite Forall_forall in F.
    specialize (F y Hy). rewrite Forall_forall in F. specialize (F x Hx).
    unfold TsDescOrder.leb, is_true in F. apply Z.leb_le in F. exact F.
Qed.

(** Five temperature readings match and the limit is 2: the answer is the
    two most recent, oldest first. *)
Example get_history_limit_2_of_5 :
  get_history example_store "m-001" "temperature" None None (Some 2)
  = Ok [ ReadingPoint.mk 4000 71.5%float; ReadingPoint.mk 5000 72.5%float ]
  /\ get_history example_store "m-001" "temperature" (Some 2000) (Some 4000) None
     = Ok [ ReadingPoint.mk 2000 70.0%float; ReadingPoint.mk 3000 70.5%float;
            ReadingPoint.mk 4000 71.5%float ]
  /\ get_history example_store "m-001" "temperature" (Some (2 ^ 63)) (Some 2000)
       None
     = Raise OverflowError.
Proof. repeat split; vm_compute; reflexivity. Qed.

Lemma get_history_most_recent_ascending_witness :
  let wanted :=
    [ Reading.mk "m-001" "temperature" 3000 70.5%float;
      Reading.mk "m-001" "temperature" 1000 69.5%float;
      Reading.mk "m-001" "temperature" 5000 72.5%float;
      Reading.mk "m-001" "temperature" 2000 70.0%float;
      Reading.mk "m-001" "temperature" 4000 71.5%float ] in
  exists sel rest,
    get_history example_store "m-001" "temperature" (Some 1000) None (Some 2)
      = Ok (map (fun r => ReadingPoint.mk (Reading.ts_ms r) (Reading.value r))
                sel)
    /\ Permutation wanted (sel ++ rest)
    /\ Z.of_nat (List.length sel) <= 2
    /\ List.length sel = Nat.min (Z.to_nat 2) (List.length wanted)
    /\ StronglySorted ts_le sel
    /\ Forall (fun x => Forall (fun y => ts_le x y) sel) rest.
Proof.
  intros wanted.
  refine (get_history_most_recent_ascending example_store "m-001" "temperature"
            (Some 1000) None (Some 2) 2 wanted
            [Reading.mk "m-001" "pressure" 1000 101.25%float] eq_refl _ _ _).
  - simpl. do 2 apply perm_skip. apply Permutation_cons_append.
  - repeat constructor; simpl; lia.
  - repeat constructor. intros [_ [H _]]. discriminate H.
Defined.

(** C9.  A limit below 1 or above 5000 is rejected with a validation error
    whatever the store holds, so before any query on it; nothing is clamped.
    A request without a limit is served as with limit 500. *)
Theorem get_history_rejects_limit_out_of_range
    (conn : Store) (machine_id metric_key : string)
    (start_ms end_ms : option Z) (limit : Z) :
  limit < 1 \/ 5000 < limit ->
  get_history conn machine_id metric_key start_ms end_ms (Some limit)
    = Raise (RequestValidationError "limit")
  /\ validate_limit None = Ok 500
  /\ get_history conn machine_id metric_key start_ms end_ms None
     = get_history conn machine_id metric_key start_ms end_ms (Some 500).
Proof.
  intros Hout. repeat split.
  unfold get_history, validate_limit.
  destruct (1 <=? limit) eqn:E1; simpl; [|reflexivity].
  destruct (limit <=? 5000) eqn:E2; [|reflexivity].
  apply Z.leb_le in E1, E2. lia.
Qed.

Lemma get_history_rejects_limit_out_of_range_witness :
  get_history example_store "m-001" "temperature" None None (Some 0)
    = Raise (RequestValidationError "limit")
  /\ get_history example_store "m-001" "temperature" None None (Some 5001)
    = Raise (RequestValidationError "limit").
Proof.
  split.
  - refine (proj1 (get_history_rejects_limit_out_of_range example_store
                     "m-001" "temperature" None None 0 _)). lia.
  - refine (proj1 (get_history_rejects_limit_out_of_range example_store
                     "m-001" "temperature" None None 5001 _)). lia.
Defined.

(** Within the range nothing is rejected. *)
Lemma validate_limit_in_range (limit : Z) :
  1 <= limit <= 5000 -> validate_limit (Some limit) = Ok limit.
Proof.
  intros [H1 H2]. unfold validate_limit.
  apply Z.leb_le in H1, H2. now rewrite H1, H2.
Qed.

(* ================================================================= *)
(** ** apply_migrations *)

Lemma string_lt_iff (a b : string) : string_lt a b <-> String_as_OT.lt a b.
Proof.
  unfold string_lt, String.ltb. rewrite <- String_as_OT.cmp_lt.
  unfold String_as_OT.cmp. destruct (String.compare a b); split;
    congruence.
Qed.

Lemma string_le_iff (a b : string) : string_le a b <-> a = b \/ string_lt a b.
Proof.
  unfold string_le, string_lt, String.leb, String.ltb.
  destruct (String.compare a b) eqn:E.
  - apply String.compare_eq_iff in E. tauto.
  - tauto.
  - split; [discriminate|]. intros [-> | H]; [|discriminate].
    assert (H : String.compare b b = Eq)
      by (apply String_as_OT.cmp_eq; reflexivity).
    congruence.
Qed.

Lemma string_le_trans (a b c : string) :
  string_le a b -> string_le b c -> string_le a c.
Proof.
  rewrite !string_le_iff, !string_lt_iff.
  intros [-> | H1] [-> | H2]; auto.
  right. eapply String_as_OT.lt_trans; eassumption.
Qed.

Lemma PathOrder_transitive :
  Transitive (fun a b : MigrationFile.t => is_true (PathOrder.leb a b)).
Proof. intros a b c. apply string_le_trans. Qed.

Section SortedListFacts.
Context {A B : Type}.

Lemma StronglySorted_filter (R : A -> A -> Prop) (p : A -> bool) (l : list A) :
  StronglySorted R l -> StronglySorted R (filter p l).
Proof.
  induction 1 as [|a l Hs IH Ha]; simpl; [constructor|].
  destruct (p a); [|exact IH].
  constructor; [exact IH|].
  apply Forall_forall. intros x Hx. apply filter_In in Hx.
  rewrite Forall_forall in Ha. now apply Ha.
Qed.

Lemma StronglySorted_map (R : B -> B -> Prop) (f : A -> B) (l : list A) :
  StronglySorted (fun x y => R (f x) (f y)) l -> StronglySorted R (map f l).
Proof.
  induction 1 as [|a l Hs IH Ha]; simpl; constructor; [exact IH|].
  apply Forall_forall. intros y Hy. apply in_map_iff in Hy.
  destruct Hy as [x [<- Hx]]. rewrite Forall_forall in Ha. now apply Ha.
Qed.
End SortedListFacts.

Lemma StronglySorted_strict (l : list string) :
  StronglySorted string_le l -> NoDup l -> StronglySorted string_lt l.
Proof.
  induction 1 as [|a l Hs IH Ha]; intros Hnd; constructor;
    inversion Hnd; subst.
  - now apply IH.
  - apply Forall_forall. intros x Hx. rewrite Forall_forall in Ha.
    specialize (Ha x Hx). apply string_le_iff in Ha.
    destruct Ha as [-> | Ha]; [contradiction | exact Ha].
Qed.

Lemma existsb_eqb_In (v : string) (l : list string) :
  existsb (String.eqb v) l = true <-> In v l.
Proof.
  rewrite existsb_exists. split.
  - intros [x [Hx E]]. apply String.eqb_eq in E. now subst.
  - intros H. exists v. split; [exact H | apply String.eqb_refl].
Qed.

Lemma existsb_fst_In (v : string) (tbl : list (string * Z)) :
  existsb (fun row => String.eqb (fst row) v) tbl = true <-> In v (map fst tbl).
Proof.
  rewrite existsb_exists, in_map_iff. split; intros [x [H1 H2]]; exists x.
  - apply String.eqb_eq in H2. auto.
  - split; [exact H2 | now apply String.eqb_eq].
Qed.

Section MigrationFacts.
Variable Schema : Type.
Variable executescript : string -> Schema -> result Schema.

(** A successful pass over [files] ran exactly the pending ones, in the
    order of [files], and appended one log row per script. *)
Lemma migrate_ok (now : string -> Z) (applied : list string)
    (files : list MigrationFile.t) :
  forall sch tbl sch' tbl' ran,
    Db.migrate Schema executescript now applied files sch tbl
      = Ok (sch', tbl', ran) ->
    ran = map MigrationFile.name (Db.pending applied files)
    /\ map fst tbl' = map fst tbl ++ ran
    /\ Db.executescripts Schema executescript (Db.pending applied files) sch
       = Some sch'
    /\ NoDup ran
    /\ forall v, In v ran -> ~ In v (map fst tbl).
Proof.
  induction files as [|mf rest IH]; intros sch tbl sch' tbl' ran H; simpl in H.
  - inversion H; subst. simpl. rewrite app_nil_r.
    repeat split; [constructor | intros v []].
  - unfold Db.pending. simpl. fold (Db.pending applied rest).
    destruct (existsb (String.eqb (MigrationFile.name mf)) applied); simpl.
    + now apply IH.
    + unfold Db.run_script.
      destruct (MigrationFile.read_text mf) as [sql|]; [|discriminate].
      destruct (executescript sql sch) as [sch1|]; [|discriminate].
      destruct (existsb _ tbl) eqn:Epk; [discriminate|].
      destruct (Db.migrate _ _ _ _ rest sch1 _) as [[[s2 t2] r2]|e] eqn:M;
        [|discriminate].
      inversion H; subst; clear H.
      destruct (IH _ _ _ _ _ M) as [E1 [E2 [E3 [E4 E5]]]].
      assert (Hfresh : ~ In (MigrationFile.name mf) (map fst tbl)).
      { intros Hin. apply existsb_fst_In in Hin. congruence. }
      rewrite map_app in E2, E5. simpl in E2, E5.
      repeat split.
      * now rewrite E1.
      * now rewrite E2, <- app_assoc.
      * exact E3.
      * constructor; [|exact E4].
        intros Hin. apply (E5 _ Hin). apply in_or_app. right. now left.
      * intros v [<- | Hv]; [exact Hfresh|].
        intros Hin. apply (E5 _ Hv). apply in_or_app. now left.
Qed.

(** When every file is already applied, the pass executes nothing. *)
Lemma migrate_nothing_pending (now : string -> Z) (applied : list string)
    (files : list MigrationFile.t) (sch : Schema) (tbl : list (string * Z)) :
  (forall mf, In mf files -> In (MigrationFile.name mf) applied) ->
  Db.migrate Schema executescript now applied files sch tbl = Ok (sch, tbl, []).
Proof.
  induction files as [|mf rest IH]; intros Hall; simpl; [reflexivity|].
  assert (E : existsb (String.eqb (MigrationFile.name mf)) applied = true)
    by (apply existsb_eqb_In, Hall; now left).
  rewrite E. apply IH. intros x Hx. apply Hall. now right.
Qed.

Lemma pending_or_applied (applied : list string) (files : list MigrationFile.t)
    (mf : MigrationFile.t) :
  In mf files ->
  In (MigrationFile.name mf) applied
  \/ In (MigrationFile.name mf) (map MigrationFile.name (Db.pending applied files)).
Proof.
  intros Hin.
  destruct (existsb (String.eqb (MigrationFile.name mf)) applied) eqn:E.
  - left. now apply existsb_eqb_In.
  - right. apply in_map. unfold Db.pending. apply filter_In.
    split; [exact Hin | now rewrite E].
Qed.

(** C3.  A successful [apply_migrations] has executed exactly the [*.sql]
    files whose name was not in the log, each once, in strictly ascending
    order of file name, and has appended their names to the log in that
    order.  Run again on the resulting connection, at whatever time, it
    executes nothing and returns the connection unchanged. *)
Theorem apply_migrations_ordered_idempotent
    (now now' : string -> Z) (dir : list MigrationFile.t)
    (c c' : Db.conn Schema) (ran : list string) :
  Db.apply_migrations Schema executescript now dir c = Ok (c', ran) ->
  let todo := Db.pending (Db.versions Schema c) (PathSort.sort (glob_sql dir)) in
  ran = map MigrationFile.name todo
  /\ StronglySorted string_lt ran
  /\ Db.executescripts Schema executescript todo (Db.schema Schema c)
     = Some (Db.schema Schema c')
  /\ Db.versions Schema c' = Db.versions Schema c ++ ran
  /\ (forall mf, In mf (glob_sql dir) ->
        In (MigrationFile.name mf) (Db.versions Schema c'))
  /\ Db.apply_migrations Schema executescript now' dir c' = Ok (c', []).
Proof.
  unfold Db.apply_migrations, Db.versions. intros H.
  set (tbl := Db.create_schema_migrations Schema c) in *.
  set (files := PathSort.sort (glob_sql dir)) in *.
  destruct (Db.migrate _ _ _ _ files _ tbl) as [[[s1 t1] r1]|e] eqn:M;
    [|discriminate].
  inversion H; subst; clear H. simpl.
  destruct (migrate_ok _ _ _ _ _ _ _ _ M) as [E1 [E2 [E3 [E4 E5]]]].
  assert (Hrec : forall mf, In mf files -> In (MigrationFile.name mf) (map fst t1)).
  { intros mf Hin. rewrite E2. apply in_or_app.
    destruct (pending_or_applied (map fst tbl) files mf Hin) as [Ha | Hp];
      [now left | right; now rewrite E1]. }
  repeat split.
  - exact E1.
  - apply StronglySorted_strict; [|exact E4]. rewrite E1.
    apply StronglySorted_map. apply StronglySorted_filter.
    apply PathSort.StronglySorted_sort, PathOrder_transitive.
  - exact E3.
  - exact E2.
  - intros mf Hin. apply Hrec.
    apply (Permutation_in _ (PathSort.Permuted_sort (glob_sql dir))), Hin.
  - fold files. rewrite migrate_nothing_pending; [reflexivity | exact Hrec].
Qed.
End MigrationFacts.

Lemma apply_migrations_ordered_idempotent_witness :
  let c' :=
    Db.mkConn (list string)
      ["CREATE machines, metrics"; "CREATE readings"; "CREATE INDEX readings_ts"]
      (Some [("001_init.sql", 100); ("002_readings.sql", 200);
             ("003_indexes.sql", 200)]) in
  Db.apply_migrations (list string) example_executescript (fun _ => 200)
    example_dir example_conn
    = Ok (c', ["002_readings.sql"; "003_indexes.sql"])
  /\ Db.apply_migrations (list string) example_executescript (fun _ => 300)
       example_dir c'
     = Ok (c', []).
Proof.
  intros c'. split; [reflexivity|].
  refine (proj2 (proj2 (proj2 (proj2 (proj2
    (apply_migrations_ordered_idempotent (list string) example_executescript
       (fun _ => 200) (fun _ => 300) example_dir example_conn c'
       ["002_readings.sql"; "003_indexes.sql"] _)))))).
  reflexivity.
Defined.

(* ================================================================= *)
(** * Further properties *)

(** ** Batches whose keys are present, and batches of fresh keys *)

Section BatchFacts.
Context {A K : Type}.
Variable key : A -> K.
Variable key_eqb : K -> K -> bool.
Hypothesis key_eqb_eq : forall a b, key_eqb a b = true <-> a = b.

Lemma lookup_member (r : A) (rows : list A) :
  In r rows -> lookup key key_eqb (key r) rows <> None.
Proof.
  intros Hin E. pose proof (find_none _ _ E r Hin) as Hf. simpl in Hf.
  assert (key_eqb (key r) (key r) = true) by now apply key_eqb_eq.
  congruence.
Qed.

Lemma executemany_present (rows : list A) :
  forall tbl,
    (forall r, In r rows -> lookup key key_eqb (key r) tbl <> None) ->
    executemany key key_eqb rows tbl = tbl.
Proof.
  induction rows as [|r rows IH]; intros tbl Hall; [reflexivity|].
  rewrite executemany_cons.
  destruct (insert_or_ignore_cases key key_eqb r tbl) as [[_ ->] | [Hn _]].
  - apply IH. intros x Hx. apply Hall. now right.
  - exfalso. apply (Hall r); [now left | exact Hn].
Qed.

Lemma executemany_fresh (rows : list A) :
  forall tbl,
    NoDup (map key rows) ->
    (forall r, In r rows -> lookup key key_eqb (key r) tbl = None) ->
    executemany key key_eqb rows tbl = tbl ++ rows.
Proof.
  induction rows as [|r rows IH]; intros tbl Hnd Hall.
  - simpl. now rewrite app_nil_r.
  - rewrite executemany_cons. simpl in Hnd. inversion Hnd as [|k l Hk Hnd']; subst.
    destruct (insert_or_ignore_cases key key_eqb r tbl) as [[Hex _] | [_ ->]].
    + exfalso. apply Hex, Hall. now left.
    + rewrite IH; [now rewrite <- app_assoc | exact Hnd' |].
      intros x Hx. rewrite lookup_app, (Hall x (or_intror Hx)).
      unfold lookup. simpl.
      destruct (key_eqb (key r) (key x)) eqn:E; [|reflexivity].
      apply key_eqb_eq in E. exfalso. apply Hk. rewrite E. now apply in_map.
Qed.

Lemma executemany_again (rows rows' tbl : list A) :
  (forall r', In r' rows' -> In (key r') (map key rows)) ->
  executemany key key_eqb rows' (executemany key key_eqb rows tbl)
  = executemany key key_eqb rows tbl.
Proof.
  intros Hsub. apply executemany_present. intros r' Hr'.
  specialize (Hsub r' Hr'). apply in_map_iff in Hsub.
  destruct Hsub as [r [Ek Hr]].
  rewrite (lookup_executemany key key_eqb key_eqb_eq).
  destruct (lookup key key_eqb (key r') tbl); [discriminate|].
  rewrite <- Ek. now apply lookup_member.
Qed.
End BatchFacts.

Lemma keys_present_after_batch (rows : list Reading.t) (tbl : list Reading.t)
    (r : Reading.t) :
  In r rows ->
  In (Reading.key r)
     (map Reading.key (executemany Reading.key reading_key_eqb rows tbl)).
Proof.
  intros Hin.
  destruct (executemany_first_occurrences Reading.key reading_key_eqb
              reading_key_eqb_eq rows tbl) as [added [E [_ [_ H]]]].
  rewrite E. now apply H.
Qed.

(** X1.  Once a batch has been written, writing any batch whose keys all
    occur in it changes nothing, whatever values the new rows carry. *)
Theorem write_rows_again_is_noop
    (eng : engine) (rows rows' : list Reading.t) (conn conn1 : Store) :
  write_rows eng false rows conn = Ok conn1 ->
  (forall r', In r' rows' -> In (Reading.key r') (map Reading.key rows)) ->
  write_rows eng false rows' conn1 = Ok conn1.
Proof.
  intros H Hsub. apply write_rows_Ok_inv in H. destruct H as [_ [Hfit ->]].
  rewrite write_rows_fits.
  - f_equal. apply executemany_readings_present. intros r' Hr'.
    rewrite executemany_readings_readings.
    specialize (Hsub r' Hr'). apply in_map_iff in Hsub.
    destruct Hsub as [r [Ek Hr]]. rewrite <- Ek.
    now apply keys_present_after_batch.
  - apply Forall_forall. intros r' Hr'.
    specialize (Hsub r' Hr'). apply in_map_iff in Hsub.
    destruct Hsub as [r [Ek Hr]]. rewrite Forall_forall in Hfit.
    specialize (Hfit r Hr). unfold Reading.key in Ek. inversion Ek.
    congruence.
Qed.

Lemma write_rows_again_is_noop_witness :
  let r1 := Reading.mk "m-001" "temperature" 1000 1.5%float in
  let r2 := Reading.mk "m-002" "pressure" 1000 3.5%float in
  let r1' := Reading.mk "m-001" "temperature" 1000 9.5%float in
  let stored := mkStore (machines startup_store) (metrics startup_store)
                        [r1; r2] [r1; r2] in
  write_rows spec_engine false [r1; r2] startup_store = Ok stored
  /\ write_rows spec_engine false [r1'] stored = Ok stored.
Proof.
  intros r1 r2 r1' stored. split; [reflexivity|].
  apply (write_rows_again_is_noop spec_engine [r1; r2] [r1'] startup_store);
    [reflexivity|].
  intros r' [<- | []]. left. reflexivity.
Defined.

(* ================================================================= *)
(** ** seed *)

Lemma seed_machines_literal (id : string) (conn : Store) :
  lookup Machine.machine_id String.eqb id (machines (seed conn)) =
  match lookup Machine.machine_id String.eqb id (machines conn) with
  | Some m => Some m
  | None => lookup Machine.machine_id String.eqb id (machines startup_store)
  end.
Proof.
  unfold seed. cbn [machines].
  rewrite (lookup_executemany Machine.machine_id String.eqb String.eqb_eq).
  reflexivity.
Qed.

Lemma seed_metrics_literal (k : string) (conn : Store) :
  lookup Metric.metric_key String.eqb k (metrics (seed conn)) =
  match lookup Metric.metric_key String.eqb k (metrics conn) with
  | Some m => Some m
  | None => lookup Metric.metric_key String.eqb k (metrics startup_store)
  end.
Proof.
  unfold seed. cbn [metrics].
  rewrite (lookup_executemany Metric.metric_key String.eqb String.eqb_eq).
  reflexivity.
Qed.

(** X2.  Seeding is idempotent: a second [seed] leaves the store exactly as
    the first one left it. *)
Theorem seed_idempotent (conn : Store) : seed (seed conn) = seed conn.
Proof.
  unfold seed. cbn [machines metrics readings latest_readings].
  rewrite (executemany_again Machine.machine_id String.eqb String.eqb_eq)
    by (intros r' H; now apply in_map).
  rewrite (executemany_again Metric.metric_key String.eqb String.eqb_eq)
    by (intros r' H; now apply in_map).
  reflexivity.
Qed.

(** X3.  Seeding never overwrites the catalog: a machine id or metric key
    that the store already has keeps its row, and any other id or key gets
    the row that seeding an empty store gives it.  The two reading tables
    are left as they are. *)
Theorem seed_keeps_existing_rows (conn : Store) (id : string) :
  lookup Machine.machine_id String.eqb id (machines (seed conn)) =
    match lookup Machine.machine_id String.eqb id (machines conn) with
    | Some m => Some m
    | None => lookup Machine.machine_id String.eqb id (machines startup_store)
    end
  /\ lookup Metric.metric_key String.eqb id (metrics (seed conn)) =
    match lookup Metric.metric_key String.eqb id (metrics conn) with
    | Some m => Some m
    | None => lookup Metric.metric_key String.eqb id (metrics startup_store)
    end
  /\ readings (seed conn) = readings conn
  /\ latest_readings (seed conn) = latest_readings conn.
Proof.
  split; [apply seed_machines_literal|].
  split; [apply seed_metrics_literal|].
  split; reflexivity.
Qed.

(** A store whose "m-001" was renamed keeps the new name through [seed]. *)
Example seed_keeps_renamed_machine :
  let renamed := Machine.mk "m-001" "Press 1 (rebuilt)" None "maintenance" in
  machines (seed (mkStore [renamed] [] [] []))
  = [ renamed;
      Machine.mk "m-002" "CNC 2" (Some "Plant A") "ok";
      Machine.mk "m-003" "Oven 1" (Some "Plant B") "ok" ].
Proof. reflexivity. Qed.

(** X4.  Seeding keeps machine ids and metric keys unique, and afterwards
    the three machines and the three metrics of the seed are in the
    catalog, whatever the store held before. *)
Theorem seed_catalog_unique_and_present (conn : Store) :
  NoDup (map Machine.machine_id (machines conn)) ->
  NoDup (map Metric.metric_key (metrics conn)) ->
  NoDup (map Machine.machine_id (machines (seed conn)))
  /\ NoDup (map Metric.metric_key (metrics (seed conn)))
  /\ Forall (fun id => machine_exists (seed conn) id = true)
            ["m-001"; "m-002"; "m-003"]
  /\ Forall (fun k => In k (map Metric.metric_key (metrics (seed conn))))
            ["temperature"; "pressure"; "vibration"].
Proof.
  intros Hm Hk. split; [|split; [|split]].
  - unfold seed. cbn [machines].
    apply executemany_NoDup; [exact String.eqb_eq | exact Hm].
  - unfold seed. cbn [metrics].
    apply executemany_NoDup; [exact String.eqb_eq | exact Hk].
  - apply Forall_forall. intros id Hid. unfold machine_exists.
    fold (lookup Machine.machine_id String.eqb id (machines (seed conn))).
    rewrite (existsb_lookup Machine.machine_id String.eqb).
    rewrite seed_machines_literal.
    destruct (lookup Machine.machine_id String.eqb id (machines conn));
      [reflexivity|].
    simpl in Hid. repeat (destruct Hid as [<- | Hid]; [reflexivity|]).
    destruct Hid.
  - apply Forall_forall. intros k Hin.
    destruct (lookup Metric.metric_key String.eqb k (metrics (seed conn)))
      as [x|] eqn:E.
    + apply (lookup_key Metric.metric_key String.eqb String.eqb_eq) in E.
      destruct E as [Hx <-]. now apply in_map.
    + exfalso. pose proof (seed_metrics_literal k conn) as H.
      rewrite E in H.
      destruct (lookup Metric.metric_key String.eqb k (metrics conn));
        [discriminate|].
      simpl in Hin. repeat (destruct Hin as [<- | Hin]; [discriminate H|]).
      destruct Hin.
Qed.

Lemma seed_catalog_unique_and_present_witness :
  NoDup (map Machine.machine_id (machines (seed example_store)))
  /\ machine_exists (seed empty_store) "m-003" = true.
Proof.
  assert (Hm : NoDup (map Machine.machine_id (machines example_store))).
  { simpl. repeat constructor; simpl; intuition discriminate. }
  assert (Hk : NoDup (map Metric.metric_key (metrics example_store))).
  { simpl. repeat constructor; simpl; intuition discriminate. }
  split.
  - exact (proj1 (seed_catalog_unique_and_present example_store Hm Hk)).
  - destruct (seed_catalog_unique_and_present empty_store
                (NoDup_nil _) (NoDup_nil _)) as [_ [_ [H _]]].
    rewrite Forall_forall in H. apply H. simpl. auto.
Defined.

(* ================================================================= *)
(** ** Passes of the worker loop *)

Lemma tick_rows_keys (sin : float -> float) (mp kp : string -> float)
    (ms ks : list string) (it : iteration) :
  map Reading.key (tick_rows sin mp kp ms ks it)
  = map (fun p => (fst p, snd p, now_ms it)) (list_prod ms ks).
Proof.
  unfold tick_rows. induction ms as [|m ms IH]; simpl; [reflexivity|].
  rewrite !map_app, IH, !map_map. reflexivity.
Qed.

Lemma NoDup_list_prod {A B : Type} (l : list A) (l' : list B) :
  NoDup l -> NoDup l' -> NoDup (list_prod l l').
Proof.
  intros Hl Hl'. induction Hl as [|a l Ha Hl IH]; simpl; [constructor|].
  apply NoDup_app.
  - clear - Hl'. induction Hl' as [|b l' Hb Hl' IH]; simpl; constructor.
    + intros Hin. apply in_map_iff in Hin. destruct Hin as [y [E Hy]].
      inversion E; subst. contradiction.
    + exact IH.
  - exact IH.
  - intros [x y] H1 H2. apply in_map_iff in H1. destruct H1 as [z [E _]].
    inversion E; subst. apply in_prod_iff in H2. tauto.
Qed.

Lemma tick_rows_keys_NoDup (sin : float -> float) (mp kp : string -> float)
    (ms ks : list string) (it : iteration) :
  NoDup ms -> NoDup ks ->
  NoDup (map Reading.key (tick_rows sin mp kp ms ks it)).
Proof.
  intros Hm Hk. rewrite tick_rows_keys.
  pose proof (NoDup_list_prod ms ks Hm Hk) as H.
  induction H as [|[m k] l Hin Hnd IH]; simpl; constructor; [|exact IH].
  intros Hc. apply in_map_iff in Hc. destruct Hc as [[m' k'] [E Hc]].
  simpl in E. inversion E; subst. contradiction.
Qed.

Lemma tick_rows_pairs (sin : float -> float) (mp kp : string -> float)
    (ms ks : list string) (it : iteration) :
  map (fun r => (Reading.machine_id r, Reading.metric_key r))
      (tick_rows sin mp kp ms ks it)
  = list_prod ms ks.
Proof.
  unfold tick_rows. induction ms as [|m ms IH]; simpl; [reflexivity|].
  rewrite map_app, IH, map_map. reflexivity.
Qed.

Lemma Permutation_list_prod {A B : Type} (l1 l1' : list A) (l2 l2' : list B) :
  Permutation l1 l1' -> Permutation l2 l2' ->
  Permutation (list_prod l1 l2) (list_prod l1' l2').
Proof.
  intros H1 H2. transitivity (list_prod l1' l2).
  - clear H2. induction H1 as [|x l l' _ IH|x y l|l l' l'' _ IH1 _ IH2]; simpl.
    + constructor.
    + now apply Permutation_app_head.
    + rewrite !app_assoc. apply Permutation_app_tail, Permutation_app_comm.
    + now transitivity (list_prod l' l2).
  - clear H1. induction l1' as [|a l IH]; simpl; [constructor|].
    apply Permutation_app; [now apply Permutation_map | exact IH].
Qed.


Section PassFacts.
Variable eng : engine.
Variable sin : float -> float.
Variables machine_phase metric_phase : string -> float.

Lemma write_tick_again (ms ks : list string) (it1 it2 : iteration)
    (conn conn1 : Store) :
  write_rows eng false (tick_rows sin machine_phase metric_phase ms ks it1) conn
    = Ok conn1 ->
  now_ms it2 = now_ms it1 ->
  write_rows eng false (tick_rows sin machine_phase metric_phase ms ks it2) conn1
    = Ok conn1.
Proof.
  intros H Hms. apply write_rows_Ok_inv in H. destruct H as [_ [Hfit ->]].
  rewrite write_rows_fits.
  - f_equal. apply executemany_readings_present. intros r' Hr'.
    rewrite executemany_readings_readings.
    apply (in_map Reading.key) in Hr'. rewrite tick_rows_keys, Hms in Hr'.
    rewrite <- (tick_rows_keys sin machine_phase metric_phase) in Hr'.
    apply in_map_iff in Hr'. destruct Hr' as [r [Ek Hr]]. rewrite <- Ek.
    now apply keys_present_after_batch.
  - apply Forall_forall. intros r' Hr'. apply tick_rows_In in Hr'.
    destruct Hr' as [Hm [Hk Hts]]. rewrite Hts, Hms.
    destruct ms as [|m ms']; [destruct Hm|].
    destruct ks as [|k ks']; [destruct Hk|].
    rewrite Forall_forall in Hfit.
    assert (Hin : In (Reading.mk m k (now_ms it1)
                        (_value_for sin (noise it1 m k) k (t_now it1)
                           (machine_phase m) (metric_phase k)))
                     (tick_rows sin machine_phase metric_phase
                        (m :: ms') (k :: ks') it1))
      by (unfold tick_rows; simpl; now left).
    exact (Hfit _ Hin).
Qed.

(** X5.  A pass whose [now_ms] equals that of the pass before it writes
    nothing: every key it offers is taken, so its values are dropped and
    the run goes on as if the pass had not happened. *)
Theorem pass_at_same_ms_is_dropped
    (it1 it2 : iteration) (rest : list iteration) (conn : Store) :
  stop_is_set it1 = false -> write_raises it1 = false ->
  stop_is_set it2 = false -> write_raises it2 = false ->
  now_ms it2 = now_ms it1 ->
  _run_loop eng sin machine_phase metric_phase (it1 :: it2 :: rest) conn
  = _run_loop eng sin machine_phase metric_phase (it1 :: rest) conn.
Proof.
  intros S1 W1 S2 W2 Hms. unfold _run_loop.
  set (ms := select_machines eng (machines conn)).
  set (ks := select_metrics eng (metrics conn)).
  cbn [loop]. rewrite S1, W1.
  destruct (write_rows eng false
              (tick_rows sin machine_phase metric_phase ms ks it1) conn)
    as [conn1|e] eqn:E1; [|reflexivity].
  cbn [loop]. rewrite S2, W2.
  now rewrite (write_tick_again ms ks it1 it2 conn conn1 E1 Hms).
Qed.

(** X6.  With unique machine ids and metric keys in the catalog and a
    database whose [SELECT]s return every id, a pass whose [now_ms] can be
    bound and is later than every stored reading appends, after the rows
    that were there, exactly one new row per (machine, metric) pair of the
    catalog, each with that [now_ms]. *)
Theorem pass_with_newer_ms_appends_all (it : iteration) (conn : Store) :
  select_complete eng ->
  stop_is_set it = false -> write_raises it = false ->
  fits_int64 (now_ms it) = true ->
  NoDup (map Machine.machine_id (machines conn)) ->
  NoDup (map Metric.metric_key (metrics conn)) ->
  (forall r, In r (readings conn) -> Reading.ts_ms r < now_ms it) ->
  exists added,
    readings (fst (_run_loop eng sin machine_phase metric_phase [it] conn))
    = readings conn ++ added
    /\ Permutation
         (map (fun r => (Reading.machine_id r, Reading.metric_key r)) added)
         (list_prod (map Machine.machine_id (machines conn))
                    (map Metric.metric_key (metrics conn)))
    /\ Forall (fun r => Reading.ts_ms r = now_ms it) added.
Proof.
  intros [Hsm Hsk] Hs Hw Hfit Hm Hk Hnew. unfold _run_loop.
  set (ms := select_machines eng (machines conn)).
  set (ks := select_metrics eng (metrics conn)).
  set (rows := tick_rows sin machine_phase metric_phase ms ks it).
  assert (Hts : Forall (fun r => Reading.ts_ms r = now_ms it) rows).
  { apply Forall_forall. intros r Hr. now apply tick_rows_In in Hr. }
  exists rows. cbn [loop]. rewrite Hs, Hw. fold rows.
  rewrite write_rows_fits
    by (eapply Forall_impl; [|exact Hts]; intros r ->; exact Hfit).
  cbn [fst loop]. rewrite executemany_readings_readings.
  repeat split; [| |exact Hts].
  - apply (executemany_fresh Reading.key reading_key_eqb reading_key_eqb_eq).
    + apply tick_rows_keys_NoDup.
      * eapply Permutation_NoDup; [apply Permutation_sym, Hsm | exact Hm].
      * eapply Permutation_NoDup; [apply Permutation_sym, Hsk | exact Hk].
    + intros r Hr.
      apply (lookup_None_iff Reading.key reading_key_eqb reading_key_eqb_eq).
      intros Hin. apply in_map_iff in Hin. destruct Hin as [r0 [E Hr0]].
      apply tick_rows_In in Hr. destruct Hr as [_ [_ Hr]].
      specialize (Hnew r0 Hr0). unfold Reading.key in E. inversion E. lia.
  - unfold rows. rewrite tick_rows_pairs.
    apply Permutation_list_prod; [apply Hsm | apply Hsk].
Qed.

Lemma loop_appends (ms ks : list string) (trace : list iteration) :
  forall conn,
    exists added,
      readings (fst (loop eng sin machine_phase metric_phase ms ks trace conn))
      = readings conn ++ added
      /\ Forall (fun r => In (Reading.machine_id r) ms
                   /\ In (Reading.metric_key r) ks) added.
Proof.
  induction trace as [|it rest IH]; intros conn; simpl.
  - exists []. now rewrite app_nil_r.
  - destruct (stop_is_set it); simpl; [exists []; now rewrite app_nil_r|].
    destruct (write_rows eng (write_raises it) _ conn) as [conn1|e] eqn:W;
      simpl; [|exists []; now rewrite app_nil_r].
    apply write_rows_Ok_inv in W. destruct W as [_ [_ ->]].
    destruct (executemany_appends Reading.key reading_key_eqb
                (tick_rows sin machine_phase metric_phase ms ks it)
                (readings conn)) as [a1 [E1 F1]].
    destruct (IH (executemany_readings eng
                    (tick_rows sin machine_phase metric_phase ms ks it) conn))
      as [a2 [E2 F2]].
    exists (a1 ++ a2). split.
    + rewrite E2, executemany_readings_readings, E1. now rewrite app_assoc.
    + apply Forall_app. split; [|exact F2].
      eapply Forall_impl; [|exact F1]. simpl. intros r [Hr _].
      apply tick_rows_In in Hr. tauto.
Qed.

(** X7.  With a database whose [SELECT]s return every id, a run of the
    loop is append-only on [readings], whatever the trace: the rows that
    were stored are still there, in place and unchanged, followed by rows
    of machines and metrics of the catalog.  The two catalog tables come out
    as they went in. *)
Theorem run_loop_append_only (trace : list iteration) (conn : Store) :
  select_complete eng ->
  let out := fst (_run_loop eng sin machine_phase metric_phase trace conn) in
  machines out = machines conn
  /\ metrics out = metrics conn
  /\ exists added,
       readings out = readings conn ++ added
       /\ Forall (fun r =>
                    machine_exists conn (Reading.machine_id r) = true
                    /\ In (Reading.metric_key r)
                          (map Metric.metric_key (metrics conn))) added.
Proof.
  intros [Hsm Hsk]. unfold _run_loop.
  destruct (loop_frame eng sin machine_phase metric_phase
              (select_machines eng (machines conn))
              (select_metrics eng (metrics conn)) trace conn)
    as [F1 [F2 _]].
  destruct (loop_appends (select_machines eng (machines conn))
              (select_metrics eng (metrics conn)) trace conn)
    as [added [E F]].
  repeat split; try assumption.
  exists added. split; [exact E|].
  eapply Forall_impl; [|exact F]. simpl. intros r [H1 H2]. split.
  - apply machine_exists_iff. exact (Permutation_in _ (Hsm _) H1).
  - exact (Permutation_in _ (Hsk _) H2).
Qed.

(** X8.  Once a pass sees the stop event, the run is over: the passes
    listed after it have no effect on the result, and the loop is not left
    running. *)
Theorem passes_after_stop_never_run
    (pre : list iteration) (it : iteration) (rest : list iteration)
    (conn : Store) :
  stop_is_set it = true ->
  _run_loop eng sin machine_phase metric_phase (pre ++ it :: rest) conn
  = _run_loop eng sin machine_phase metric_phase (pre ++ [it]) conn
  /\ snd (_run_loop eng sin machine_phase metric_phase (pre ++ it :: rest) conn)
     <> Looping.
Proof.
  intros Hs. unfold _run_loop.
  generalize (select_machines eng (machines conn)) as ms.
  generalize (select_metrics eng (metrics conn)) as ks.
  intros ks ms. revert conn.
  induction pre as [|p pre IH]; intros conn; simpl.
  - rewrite Hs. split; [reflexivity | discriminate].
  - destruct (stop_is_set p); [split; [reflexivity | discriminate]|].
    destruct (write_rows eng (write_raises p) _ conn) as [conn1|e];
      [apply IH | split; [reflexivity | discriminate]].
Qed.
End PassFacts.

Lemma pass_at_same_ms_is_dropped_witness :
  let it1 := mkIteration false 1000 1.0%float (fun _ _ => 0.25%float) false in
  let it2 := mkIteration false 1000 1.5%float (fun _ _ => 0.5%float) false in
  let it3 := mkIteration false 1500 2.0%float (fun _ _ => 0%float) false in
  _run_loop spec_engine (fun x => x) (fun _ => 0%float) (fun _ => 0%float)
            [it1; it2; it3] startup_store
  = _run_loop spec_engine (fun x => x) (fun _ => 0%float) (fun _ => 0%float)
              [it1; it3] startup_store.
Proof.
  intros it1 it2 it3.
  exact (pass_at_same_ms_is_dropped spec_engine (fun x => x) (fun _ => 0%float)
           (fun _ => 0%float) it1 it2 [it3] startup_store
           eq_refl eq_refl eq_refl eq_refl eq_refl).
Defined.

Lemma example_store_ids_distinct :
  NoDup (map Machine.machine_id (machines example_store))
  /\ NoDup (map Metric.metric_key (metrics example_store)).
Proof. split; simpl; repeat constructor; simpl; intuition discriminate. Qed.

Lemma reversing_engine_select_complete : select_complete reversing_engine.
Proof. split; intros tbl; apply Permutation_sym, Permutation_rev. Qed.

Lemma pass_with_newer_ms_appends_all_witness :
  let it := mkIteration false 6000 1.0%float (fun _ _ => 0.25%float) false in
  exists added,
    readings (fst (_run_loop reversing_engine (fun x => x) (fun _ => 0%float)
                     (fun _ => 0%float) [it] example_store))
    = readings example_store ++ added
    /\ Permutation
         (map (fun r => (Reading.machine_id r, Reading.metric_key r)) added)
         (list_prod (map Machine.machine_id (machines example_store))
                    (map Metric.metric_key (metrics example_store)))
    /\ Forall (fun r => Reading.ts_ms r = 6000) added.
Proof.
  intros it.
  apply (pass_with_newer_ms_appends_all reversing_engine (fun x => x)
           (fun _ => 0%float) (fun _ => 0%float) it example_store
           reversing_engine_select_complete eq_refl eq_refl eq_refl
           (proj1 example_store_ids_distinct) (proj2 example_store_ids_distinct)).
  intros r Hr. simpl in Hr.
  repeat (destruct Hr as [<- | Hr]; [simpl; lia|]). destruct Hr.
Defined.

Lemma run_loop_append_only_witness :
  let it := mkIteration false 6000 1.0%float (fun _ _ => 0.25%float) false in
  let out := fst (_run_loop spec_engine (fun x => x) (fun _ => 0%float)
                    (fun _ => 0%float) [it; it] example_store) in
  machines out = machines example_store
  /\ metrics out = metrics example_store
  /\ exists added,
       readings out = readings example_store ++ added
       /\ Forall (fun r =>
                    machine_exists example_store (Reading.machine_id r) = true
                    /\ In (Reading.metric_key r)
                          (map Metric.metric_key (metrics example_store))) added.
Proof.
  intros it.
  exact (run_loop_append_only spec_engine (fun x => x) (fun _ => 0%float)
           (fun _ => 0%float) [it; it] example_store
           spec_engine_select_complete).
Defined.

Lemma passes_after_stop_never_run_witness :
  let go := mkIteration false 1000 1.0%float (fun _ _ => 0%float) false in
  let halt := mkIteration true 1500 1.5%float (fun _ _ => 0%float) false in
  _run_loop spec_engine (fun x => x) (fun _ => 0%float) (fun _ => 0%float)
            [go; halt; go; go] startup_store
  = _run_loop spec_engine (fun x => x) (fun _ => 0%float) (fun _ => 0%float)
              [go; halt] startup_store.
Proof.
  intros go halt.
  exact (proj1 (passes_after_stop_never_run spec_engine (fun x => x)
                  (fun _ => 0%float) (fun _ => 0%float) [go] halt [go; go]
                  startup_store eq_refl)).
Defined.

(* ================================================================= *)
(** ** Sequences of start and stop *)

Lemma control_invariant_init : control_invariant __init__.
Proof.
  unfold control_invariant, __init__; simpl.
  repeat split; try constructor; try discriminate.
Qed.

Lemma control_invariant_call (c : call) (s : TelemetrySimulator.t) :
  control_invariant s -> control_invariant (do_call c s).
Proof.
  destruct s as [th st run iv ws nx].
  unfold control_invariant; simpl. intros [I1 [I2 [I3 [I4 [I5 I6]]]]].
  destruct c as [|b|w]; simpl; unfold start, stop, worker_ends; simpl.
  - destruct run; simpl; [repeat split; auto|].
    repeat split; try discriminate; auto.
    + apply NoDup_app; [exact I4 | repeat constructor; intros [] |].
      intros a Ha [<- | []]. rewrite Forall_forall in I5.
      specialize (I5 _ Ha). lia.
    + apply Forall_app. split; [|repeat constructor].
      eapply Forall_impl; [|exact I5]. simpl. intros; lia.
    + intros t E. inversion E. lia.
  - destruct run; simpl; [|repeat split; auto].
    destruct th as [t|]; [|exfalso; now apply I2].
    destruct b; simpl; repeat split; auto; try discriminate.
    + now apply NoDup_filter.
    + apply Forall_forall. intros x Hx. apply filter_In in Hx.
      rewrite Forall_forall in I5. now apply I5.
  - repeat split; auto.
    + now apply NoDup_filter.
    + apply Forall_forall. intros x Hx. apply filter_In in Hx.
      rewrite Forall_forall in I5. now apply I5.
Qed.

Lemma do_calls_invariant (cs : list call) :
  forall s, control_invariant s -> control_invariant (do_calls cs s).
Proof.
  unfold do_calls. induction cs as [|c cs IH]; intros s Hs; simpl; [exact Hs|].
  apply IH. now apply control_invariant_call.
Qed.

Lemma do_calls_snoc (cs : list call) (c : call) (s : TelemetrySimulator.t) :
  do_calls (cs ++ [c]) s = do_call c (do_calls cs s).
Proof. unfold do_calls. now rewrite fold_left_app. Qed.

(** X9.  After any sequence of [start] and [stop] calls on a new
    simulator, whenever its workers end: the stop event is set exactly when the simulator is stopped
    and has been started before; a running simulator has a thread; the
    tick period is still 0.5; the live workers are distinct threads that
    [start] created. *)
Theorem control_calls_keep_flags_consistent (cs : list call) :
  let s := do_calls cs __init__ in
  _stop s = negb (_running s)
            && match _thread s with Some _ => true | None => false end
  /\ (_running s = true -> _thread s <> None)
  /\ interval_s s = 0.5%float
  /\ NoDup (live_workers s)
  /\ Forall (fun i => (i < next_ident s)%nat) (live_workers s).
Proof.
  destruct (do_calls_invariant cs __init__ control_invariant_init)
    as [I1 [I2 [I3 [I4 [I5 _]]]]].
  repeat split; assumption.
Qed.

Lemma at_most_current_worker_call (c : call) (s : TelemetrySimulator.t) :
  c <> CallStop false ->
  (_running s = true -> _thread s <> None) ->
  (forall th, In th (live_workers s) ->
     _running s = true /\ _thread s = Some th) ->
  forall th, In th (live_workers (do_call c s)) ->
    _running (do_call c s) = true /\ _thread (do_call c s) = Some th.
Proof.
  intros Hc Hth Hs th.
  destruct s as [t st run iv ws nx]. simpl in *.
  destruct c as [|b|w]; simpl; unfold start, stop, worker_ends; simpl.
  - destruct run; simpl; [apply Hs|].
    intros Hin. apply in_app_or in Hin. destruct Hin as [Hin | [<- | []]].
    + destruct (Hs th Hin) as [H _]. discriminate H.
    + now split.
  - destruct run; simpl; [|apply Hs].
    destruct t as [t|]; [|exfalso; now apply Hth].
    destruct b; [|congruence]. simpl. intros Hin.
    apply filter_In in Hin. destruct Hin as [Hin Hne].
    destruct (Hs th Hin) as [_ E]. inversion E; subst.
    now rewrite Nat.eqb_refl in Hne.
  - intros Hin. apply filter_In in Hin. destruct Hin as [Hin _]. now apply Hs.
Qed.

Lemma running_has_thread_call (c : call) (s : TelemetrySimulator.t) :
  (_running s = true -> _thread s <> None) ->
  _running (do_call c s) = true -> _thread (do_call c s) <> None.
Proof.
  destruct s as [t st run iv ws nx]. simpl.
  destruct c as [|b|w]; simpl; unfold start, stop, worker_ends; simpl.
  - destruct run; simpl; [auto | discriminate].
  - destruct run; simpl; [|auto].
    destruct t; [destruct b|]; simpl; discriminate.
  - auto.
Qed.

(** X10.  When the worker is gone within the wait of every [stop], the
    simulator never has more than one live worker, whatever the calls and
    whenever workers end: a live worker is the thread in [_thread] of a
    running simulator, so there is none while the simulator is stopped. *)
Theorem one_worker_when_joins_succeed (cs : list call) :
  Forall (fun c => c <> CallStop false) cs ->
  let s := do_calls cs __init__ in
  (List.length (live_workers s) <= 1)%nat
  /\ (forall th, In th (live_workers s) ->
        is_running s = true /\ _thread s = Some th).
Proof.
  intros Hall. simpl.
  assert (H : forall cs s,
             Forall (fun c => c <> CallStop false) cs ->
             (_running s = true -> _thread s <> None) ->
             (forall th, In th (live_workers s) ->
                _running s = true /\ _thread s = Some th) ->
             forall th, In th (live_workers (do_calls cs s)) ->
               _running (do_calls cs s) = true
               /\ _thread (do_calls cs s) = Some th).
  { clear. unfold do_calls.
    induction cs as [|c cs IH]; intros s Hall Hth Hs; simpl; [exact Hs|].
    inversion Hall as [|c' cs' Hc Hcs]; subst.
    apply IH; [exact Hcs | now apply running_has_thread_call |].
    now apply at_most_current_worker_call. }
  specialize (H cs __init__ Hall).
  assert (Hone : forall th, In th (live_workers (do_calls cs __init__)) ->
                   _running (do_calls cs __init__) = true
                   /\ _thread (do_calls cs __init__) = Some th).
  { apply H; [discriminate | intros th []]. }
  split; [|exact Hone].
  destruct (do_calls_invariant cs __init__ control_invariant_init)
    as [_ [_ [_ [Hnd _]]]].
  destruct (live_workers (do_calls cs __init__)) as [|a [|b l]] eqn:E;
    simpl; [lia | lia |].
  exfalso. inversion Hnd as [|x xs Hx _]; subst. apply Hx.
  destruct (Hone a (or_introl eq_refl)) as [_ Ea].
  destruct (Hone b (or_intror (or_introl eq_refl))) as [_ Eb].
  rewrite Ea in Eb. inversion Eb. now left.
Qed.

Lemma one_worker_when_joins_succeed_witness :
  let s := do_calls [CallStart; WorkerEnds 0; CallStart; CallStop true;
                     CallStart; CallStart] __init__ in
  (List.length (live_workers s) <= 1)%nat
  /\ (forall th, In th (live_workers s) ->
        is_running s = true /\ _thread s = Some th).
Proof.
  refine (one_worker_when_joins_succeed
            [CallStart; WorkerEnds 0; CallStart; CallStop true;
             CallStart; CallStart] _).
  repeat constructor; discriminate.
Defined.

(** X11.  When the wait of [stop] runs out with the worker still in its
    loop and [start] is called next, [start] clears the stop event and
    launches a second thread while the first is still live: the simulator
    then has two distinct live workers. *)
Theorem restart_after_timed_out_join_leaves_two_workers
    (cs : list call) (th : nat) :
  let s := do_calls cs __init__ in
  is_running s = true -> _thread s = Some th -> In th (live_workers s) ->
  let s' := do_calls [CallStop false; CallStart] s in
  is_running s' = true
  /\ _stop s' = false
  /\ _thread s' = Some (next_ident s)
  /\ th <> next_ident s
  /\ In th (live_workers s')
  /\ In (next_ident s) (live_workers s').
Proof.
  intros s Hrun Hth Hlive.
  destruct (do_calls_invariant cs __init__ control_invariant_init)
    as [_ [_ [_ [_ [_ I6]]]]].
  specialize (I6 th Hth). fold s in I6.
  unfold is_running in Hrun. simpl. unfold stop, start.
  rewrite Hrun. simpl. rewrite Hth. simpl.
  repeat split.
  - lia.
  - apply in_or_app. now left.
  - apply in_or_app. right. now left.
Qed.

Lemma restart_after_timed_out_join_leaves_two_workers_witness :
  live_workers (do_calls [CallStop false; CallStart] (do_calls [CallStart] __init__))
  = [0%nat; 1%nat]
  /\ In 0%nat (live_workers
                 (do_calls [CallStop false; CallStart]
                           (do_calls [CallStart] __init__))).
Proof.
  split; [reflexivity|].
  exact (proj1 (proj2 (proj2 (proj2 (proj2
    (restart_after_timed_out_join_leaves_two_workers [CallStart] 0%nat
       eq_refl eq_refl (or_introl eq_refl))))))).
Defined.

(* ================================================================= *)
(** ** The simulator handlers *)

(** X12.  Before start-up has set [_sim], the three simulator handlers
    raise "Simulator not initialized" and change nothing.  Afterwards
    [simulate_start] answers running = true and [simulate_stop] answers
    running = false, [simulate_status] then agrees with the last of them,
    a second [simulate_start] changes nothing, and none of them touches
    [_conn]. *)
Theorem simulate_handlers_report_state (app : App.t) (b : bool) :
  match App._sim app with
  | None =>
      App.simulate_start app = (app, App.RuntimeError "Simulator not initialized")
      /\ App.simulate_stop b app
         = (app, App.RuntimeError "Simulator not initialized")
      /\ App.simulate_status app = App.RuntimeError "Simulator not initialized"
  | Some s =>
      snd (App.simulate_start app) = App.Returned true
      /\ App.simulate_status (fst (App.simulate_start app)) = App.Returned true
      /\ App.simulate_start (fst (App.simulate_start app))
         = App.simulate_start app
      /\ snd (App.simulate_stop b app) = App.Returned false
      /\ App.simulate_status (fst (App.simulate_stop b app)) = App.Returned false
      /\ App.simulate_status app = App.Returned (is_running s)
      /\ App._conn (fst (App.simulate_start app)) = App._conn app
      /\ App._conn (fst (App.simulate_stop b app)) = App._conn app
  end.
Proof.
  destruct app as [c [s|]];
    unfold App.simulate_start, App.simulate_stop, App.simulate_status, App.sim;
    simpl; [|repeat split].
  destruct s as [th st run iv ws nx]. unfold start, stop, is_running. simpl.
  destruct run; simpl.
  - repeat split. destruct th; [destruct b|]; reflexivity.
    destruct th; [destruct b|]; reflexivity.
  - repeat split.
Qed.

(** After [on_startup] the simulator exists and is not running, and the
    connection is the seeded store. *)
Lemma on_startup_state (migrated : Store) :
  App.simulate_status (App.on_startup migrated) = App.Returned false
  /\ App.conn (App.on_startup migrated) = App.Returned (seed migrated)
  /\ App.conn App.loaded = App.RuntimeError "DB not initialized".
Proof. repeat split. Qed.

(* ================================================================= *)
(** ** GET /machines, GET /metrics and the order of GET /latest *)

Lemma MachineIdOrder_transitive :
  Transitive (fun a b : Machine.t => is_true (MachineIdOrder.leb a b)).
Proof. intros a b c. apply string_le_trans. Qed.

Lemma MetricRowOrder_transitive :
  Transitive (fun a b : Metric.t => is_true (MetricRowOrder.leb a b)).
Proof. intros a b c. apply string_le_trans. Qed.

Lemma MetricKeyOrder_transitive :
  Transitive (fun a b : Reading.t => is_true (MetricKeyOrder.leb a b)).
Proof. intros a b c. apply string_le_trans. Qed.

(** X13.  [get_machines] returns every row of [machines], each as often
    as it is stored, in ascending order of [machine_id]; when the ids are
    unique the order is strict. *)
Theorem get_machines_sorted_by_id (conn : Store) :
  Permutation (machines conn) (get_machines conn)
  /\ StronglySorted string_le (map Machine.machine_id (get_machines conn))
  /\ (NoDup (map Machine.machine_id (machines conn)) ->
      StronglySorted string_lt (map Machine.machine_id (get_machines conn))).
Proof.
  unfold get_machines.
  assert (Hp : Permutation (machines conn) (MachineIdSort.sort (machines conn)))
    by apply MachineIdSort.Permuted_sort.
  assert (Hs : StronglySorted string_le
                 (map Machine.machine_id (MachineIdSort.sort (machines conn)))).
  { apply StronglySorted_map.
    apply MachineIdSort.StronglySorted_sort, MachineIdOrder_transitive. }
  repeat split; [exact Hp | exact Hs |].
  intros Hnd. apply StronglySorted_strict; [exact Hs|].
  eapply Permutation_NoDup; [|exact Hnd]. now apply Permutation_map.
Qed.

(** X14.  [get_metrics] returns every row of [metrics] in ascending order
    of [metric_key], strictly so when the keys are unique. *)
Theorem get_metrics_sorted_by_key (conn : Store) :
  Permutation (metrics conn) (get_metrics conn)
  /\ StronglySorted string_le (map Metric.metric_key (get_metrics conn))
  /\ (NoDup (map Metric.metric_key (metrics conn)) ->
      StronglySorted string_lt (map Metric.metric_key (get_metrics conn))).
Proof.
  unfold get_metrics.
  assert (Hp : Permutation (metrics conn) (MetricRowSort.sort (metrics conn)))
    by apply MetricRowSort.Permuted_sort.
  assert (Hs : StronglySorted string_le
                 (map Metric.metric_key (MetricRowSort.sort (metrics conn)))).
  { apply StronglySorted_map.
    apply MetricRowSort.StronglySorted_sort, MetricRowOrder_transitive. }
  repeat split; [exact Hp | exact Hs |].
  intros Hnd. apply StronglySorted_strict; [exact Hs|].
  eapply Permutation_NoDup; [|exact Hnd]. now apply Permutation_map.
Qed.

(** The seeded catalog comes back in key order, not in seeding order. *)
Example get_metrics_startup :
  map Metric.metric_key (get_metrics startup_store)
  = ["pressure"; "temperature"; "vibration"]
  /\ map Machine.machine_id (get_machines startup_store)
     = ["m-001"; "m-002"; "m-003"].
Proof. split; reflexivity. Qed.

Lemma get_machines_sorted_by_id_witness :
  StronglySorted string_lt (map Machine.machine_id (get_machines startup_store)).
Proof.
  apply (proj2 (proj2 (get_machines_sorted_by_id startup_store))).
  simpl. repeat constructor; simpl; intuition discriminate.
Defined.

Lemma get_metrics_sorted_by_key_witness :
  StronglySorted string_lt (map Metric.metric_key (get_metrics startup_store)).
Proof.
  apply (proj2 (proj2 (get_metrics_sorted_by_key startup_store))).
  simpl. repeat constructor; simpl; intuition discriminate.
Defined.

(** X15.  For a machine of the catalog, [get_latest] returns exactly the
    rows of [latest_readings] that carry the machine id, each converted
    field by field, in ascending order of [metric_key]. *)
Theorem get_latest_sorted_by_metric_key (conn : Store) (machine_id : string) :
  machine_exists conn machine_id = true ->
  exists rows,
    get_latest conn machine_id = Ok (map to_LatestReading rows)
    /\ Permutation
         (filter (fun r => String.eqb (Reading.machine_id r) machine_id)
                 (latest_readings conn))
         rows
    /\ Forall (fun r => In r (latest_readings conn)
                 /\ Reading.machine_id r = machine_id) rows
    /\ StronglySorted string_le (map Reading.metric_key rows).
Proof.
  intros Hex.
  set (sel := filter (fun r => String.eqb (Reading.machine_id r) machine_id)
                     (latest_readings conn)).
  exists (MetricKeySort.sort sel).
  assert (Hp : Permutation sel (MetricKeySort.sort sel))
    by apply MetricKeySort.Permuted_sort.
  repeat split.
  - unfold get_latest. now rewrite Hex.
  - exact Hp.
  - apply Forall_forall. intros r Hr.
    apply (Permutation_in _ (Permutation_sym Hp)) in Hr.
    unfold sel in Hr. apply filter_In in Hr. destruct Hr as [Hin E].
    apply String.eqb_eq in E. auto.
  - apply StronglySorted_map.
    apply MetricKeySort.StronglySorted_sort, MetricKeyOrder_transitive.
Qed.

Example get_latest_example :
  get_latest example_latest_store "m-001"
  = Ok [ LatestReading.mk "m-001" "pressure" 5000 100.5%float;
         LatestReading.mk "m-001" "vibration" 5000 3.5%float ].
Proof. reflexivity. Qed.

Lemma get_latest_sorted_by_metric_key_witness :
  machine_exists example_latest_store "m-001" = true
  /\ exists rows,
       get_latest example_latest_store "m-001" = Ok (map to_LatestReading rows)
       /\ Permutation
            (filter (fun r => String.eqb (Reading.machine_id r) "m-001")
                    (latest_readings example_latest_store))
            rows
       /\ Forall (fun r => In r (latest_readings example_latest_store)
                    /\ Reading.machine_id r = "m-001") rows
       /\ StronglySorted string_le (map Reading.metric_key rows).
Proof.
  split; [reflexivity|].
  exact (get_latest_sorted_by_metric_key example_latest_store "m-001" eq_refl).
Defined.

(* ================================================================= *)
(** ** More on GET /history *)

Lemma get_history_rows (conn : Store) (m k : string) (a b limit : option Z) (n : Z) :
  validate_limit limit = Ok n ->
  binds a && binds b = true ->
  get_history conn m k a b limit
  = Ok (map to_ReadingPoint (history_rows conn m k a b n)).
Proof.
  intros Hv Hb. unfold get_history, history_rows, history_matches.
  now rewrite Hv, Hb, map_rev.
Qed.

Lemma get_history_Ok_inv (conn : Store) (m k : string) (a b limit : option Z)
    (points : list ReadingPoint.t) :
  get_history conn m k a b limit = Ok points ->
  exists n, validate_limit limit = Ok n /\ binds a && binds b = true.
Proof.
  unfold get_history. destruct (validate_limit limit) as [n|e]; [|discriminate].
  destruct (binds a && binds b); [|discriminate]. intros _. now exists n.
Qed.

Lemma fits_int64_iff (z : Z) :
  fits_int64 z = true <-> - 2 ^ 63 <= z <= 2 ^ 63 - 1.
Proof.
  unfold fits_int64, INT64_MIN, INT64_MAX.
  rewrite andb_true_iff, !Z.leb_le. tauto.
Qed.

Lemma validate_limit_range (limit : option Z) (n : Z) :
  validate_limit limit = Ok n -> 1 <= n <= 5000.
Proof.
  unfold validate_limit.
  destruct ((1 <=? _) && (_ <=? 5000)) eqn:E; [|discriminate].
  intros H. inversion H; subst. apply andb_true_iff in E. lia.
Qed.

Section ByKey.
Context {A : Type}.
Variable f : A -> Z.

Lemma descending_distinct_rev (l : list A) :
  StronglySorted (fun x y => f y <= f x) l -> NoDup (map f l) ->
  StronglySorted (fun x y => f x < f y) (rev l).
Proof.
  intros Hs Hnd.
  apply (StronglySorted_rev (fun x y => f y < f x)).
  induction Hs as [|a l Hs IH Ha]; [constructor|].
  simpl in Hnd. inversion Hnd as [|z zs Hz Hnd']; subst.
  constructor; [now apply IH|].
  apply Forall_forall. intros x Hx. rewrite Forall_forall in Ha.
  specialize (Ha x Hx).
  assert (f x <> f a) by (intros E; apply Hz; rewrite <- E; now apply in_map).
  lia.
Qed.
End ByKey.

Lemma history_matches_distinct_ts (conn : Store) (m k : string) (a b : option Z) :
  unique_keys (readings conn) ->
  NoDup (map Reading.ts_ms (history_matches conn m k a b)).
Proof.
  unfold unique_keys, history_matches. intros Hu.
  induction (readings conn) as [|r l IH]; simpl; [constructor|].
  simpl in Hu. inversion Hu as [|z zs Hz Hnd]; subst.
  destruct (history_where m k a b r) eqn:E; [|now apply IH].
  simpl. constructor; [|now apply IH].
  intros Hin. apply in_map_iff in Hin. destruct Hin as [x [Ets Hx]].
  apply filter_In in Hx. destruct Hx as [Hx Ex].
  apply history_where_spec in E, Ex.
  apply Hz. apply in_map_iff. exists x. split; [|exact Hx].
  unfold Reading.key. destruct E as [-> [-> _]], Ex as [-> [-> _]].
  now rewrite Ets.
Qed.

(** X16.  When the keys of [readings] are unique, the points that
    [get_history] returns ascend strictly by [ts_ms]: no timestamp occurs
    twice in an answer. *)
Theorem get_history_strictly_ascending
    (conn : Store) (machine_id metric_key : string)
    (start_ms end_ms limit : option Z) (points : list ReadingPoint.t) :
  unique_keys (readings conn) ->
  get_history conn machine_id metric_key start_ms end_ms limit = Ok points ->
  StronglySorted
    (fun p q => ReadingPoint.ts_ms p < ReadingPoint.ts_ms q) points.
Proof.
  intros Hu Hget.
  destruct (get_history_Ok_inv _ _ _ _ _ _ _ Hget) as [n [Hv Hb]].
  rewrite (get_history_rows _ _ _ _ _ _ _ Hv Hb) in Hget.
  inversion Hget; subst; clear Hget.
  apply StronglySorted_map. simpl. unfold history_rows.
  set (matches := history_matches conn machine_id metric_key start_ms end_ms).
  set (sorted := TsDescSort.sort matches).
  assert (Hperm : Permutation matches sorted) by apply TsDescSort.Permuted_sort.
  assert (Hnd : NoDup (map Reading.ts_ms sorted)).
  { eapply Permutation_NoDup; [apply Permutation_map, Hperm|].
    now apply history_matches_distinct_ts. }
  assert (Hs : StronglySorted (fun x y => is_true (TsDescOrder.leb x y)) sorted)
    by (apply TsDescSort.StronglySorted_sort, TsDesc_transitive).
  rewrite <- (firstn_skipn (Z.to_nat n) sorted) in Hs, Hnd.
  apply StronglySorted_app_inv in Hs. destruct Hs as [S1 _].
  rewrite map_app in Hnd. apply NoDup_app_remove_r in Hnd.
  apply (descending_distinct_rev Reading.ts_ms); [|exact Hnd].
  eapply StronglySorted_ind with
    (P := StronglySorted (fun x y => Reading.ts_ms y <= Reading.ts_ms x)) in S1;
    [exact S1 | constructor |].
  intros x l _ IH Hx. constructor; [exact IH|].
  eapply Forall_impl; [|exact Hx]. intros y Hy.
  unfold TsDescOrder.leb, is_true in Hy. now apply Z.leb_le in Hy.
Qed.

Lemma get_history_strictly_ascending_witness :
  StronglySorted (fun p q => ReadingPoint.ts_ms p < ReadingPoint.ts_ms q)
    [ ReadingPoint.mk 2000 70.0%float; ReadingPoint.mk 3000 70.5%float;
      ReadingPoint.mk 4000 71.5%float ].
Proof.
  apply (get_history_strictly_ascending example_store "m-001" "temperature"
           (Some 2000) (Some 4000) None).
  - unfold unique_keys. simpl.
    repeat constructor; simpl; intuition discriminate.
  - vm_compute. reflexivity.
Defined.

(** X17.  Split the stored readings in any way into those the request
    asks for and the others.  When no more readings are asked for than the
    limit allows, and the bounds can be bound, the answer holds the points
    of every reading asked for, each as often as it is stored, and of no
    other.  With a bound outside the signed 64-bit range the request raises
    [OverflowError]. *)
Theorem get_history_returns_all_within_limit
    (conn : Store) (machine_id metric_key : string)
    (start_ms end_ms limit : option Z) (n : Z)
    (wanted others : list Reading.t) :
  validate_limit limit = Ok n ->
  Permutation (readings conn) (wanted ++ others) ->
  Forall (requested machine_id metric_key start_ms end_ms) wanted ->
  Forall (fun r => ~ requested machine_id metric_key start_ms end_ms r) others ->
  Z.of_nat (List.length wanted) <= n ->
  if binds start_ms && binds end_ms then
    exists sel,
      get_history conn machine_id metric_key start_ms end_ms limit
        = Ok (map (fun r => ReadingPoint.mk (Reading.ts_ms r) (Reading.value r))
                  sel)
      /\ Permutation wanted sel
  else
    get_history conn machine_id metric_key start_ms end_ms limit
    = Raise OverflowError.
Proof.
  intros Hv Hp Hw Ho Hlen.
  pose proof (history_matches_split _ _ _ _ _ _ _ Hp Hw Ho) as Hm.
  destruct (binds start_ms && binds end_ms) eqn:Hb.
  - exists (history_rows conn machine_id metric_key start_ms end_ms n).
    split; [now apply get_history_rows|].
    unfold history_rows.
    set (matches := history_matches conn machine_id metric_key start_ms end_ms) in *.
    assert (Hperm : Permutation matches (TsDescSort.sort matches))
      by apply TsDescSort.Permuted_sort.
    rewrite firstn_all2.
    + rewrite <- Hm, Hperm at 1. apply Permutation_rev.
    + rewrite <- (Permutation_length Hperm), (Permutation_length Hm). lia.
  - unfold get_history. now rewrite Hv, Hb.
Qed.

Lemma get_history_returns_all_within_limit_witness :
  let wanted :=
    [ Reading.mk "m-001" "temperature" 3000 70.5%float;
      Reading.mk "m-001" "temperature" 2000 70.0%float;
      Reading.mk "m-001" "temperature" 4000 71.5%float ] in
  exists sel,
    get_history example_store "m-001" "temperature" (Some 2000) (Some 4000) None
      = Ok (map (fun r => ReadingPoint.mk (Reading.ts_ms r) (Reading.value r))
                sel)
    /\ Permutation wanted sel.
Proof.
  intros wanted.
  refine (get_history_returns_all_within_limit example_store "m-001"
            "temperature" (Some 2000) (Some 4000) None 500 wanted
            [ Reading.mk "m-001" "temperature" 1000 69.5%float;
              Reading.mk "m-001" "pressure" 1000 101.25%float;
              Reading.mk "m-001" "temperature" 5000 72.5%float ]
            eq_refl _ _ _ _).
  - simpl. apply perm_skip.
    apply Permutation_sym.
    apply (Permutation_app_comm
             [ Reading.mk "m-001" "temperature" 2000 70.0%float;
               Reading.mk "m-001" "temperature" 4000 71.5%float ]
             [ Reading.mk "m-001" "temperature" 1000 69.5%float;
               Reading.mk "m-001" "pressure" 1000 101.25%float;
               Reading.mk "m-001" "temperature" 5000 72.5%float ]).
  - repeat constructor; simpl; lia.
  - repeat constructor; unfold requested, within_bounds; simpl;
      intros [_ [H1 [H2 H3]]]; try discriminate H1; lia.
  - simpl. lia.
Defined.

(** X18.  A window whose start lies after its end matches nothing: with a
    valid limit and bounds that sqlite3 can bind the answer is the empty
    list, not an error; with a bound outside the signed 64-bit range the
    request raises [OverflowError]. *)
Theorem get_history_empty_window
    (conn : Store) (machine_id metric_key : string) (lo hi : Z)
    (limit : option Z) :
  hi < lo ->
  get_history conn machine_id metric_key (Some lo) (Some hi) limit
  = match validate_limit limit with
    | Ok _ =>
        if fits_int64 lo && fits_int64 hi then Ok [] else Raise OverflowError
    | Raise e => Raise e
    end.
Proof.
  intros Hwin. unfold get_history.
  destruct (validate_limit limit) as [n|e]; [|reflexivity].
  simpl binds. destruct (fits_int64 lo && fits_int64 hi); [|reflexivity].
  rewrite filter_none; [now rewrite firstn_nil|].
  intros r _. destruct (history_where machine_id metric_key (Some lo) (Some hi) r)
    eqn:E; [|reflexivity].
  apply history_where_spec in E. unfold within_bounds in E. lia.
Qed.

Lemma get_history_empty_window_witness :
  get_history example_store "m-001" "temperature" (Some 4000) (Some 2000) (Some 10)
  = Ok []
  /\ get_history example_store "m-001" "temperature" (Some (2 ^ 63)) (Some 2000)
       (Some 10)
     = Raise OverflowError.
Proof.
  split.
  - refine (get_history_empty_window example_store "m-001" "temperature"
              4000 2000 (Some 10) _). lia.
  - refine (get_history_empty_window example_store "m-001" "temperature"
              (2 ^ 63) 2000 (Some 10) _). lia.
Defined.

(* ================================================================= *)
(** ** From the write of a pass to GET /history *)

Section UniqueKeyFacts.
Context {A K : Type}.
Variable key : A -> K.
Variable key_eqb : K -> K -> bool.
Hypothesis key_eqb_eq : forall a b, key_eqb a b = true <-> a = b.

Lemma filter_unique_key (k : K) (tbl : list A) (x : A) :
  NoDup (map key tbl) ->
  lookup key key_eqb k tbl = Some x ->
  filter (fun y => key_eqb (key y) k) tbl = [x].
Proof.
  unfold lookup. induction tbl as [|y tbl IH]; simpl; intros Hnd H;
    [discriminate|].
  inversion Hnd as [|z zs Hz Hnd']; subst.
  destruct (key_eqb (key y) k) eqn:E.
  - inversion H; subst. f_equal. apply filter_none. intros w Hw.
    destruct (key_eqb (key w) k) eqn:Ew; [|reflexivity].
    apply key_eqb_eq in E, Ew. exfalso. apply Hz. rewrite E, <- Ew.
    now apply in_map.
  - now apply IH.
Qed.
End UniqueKeyFacts.

Lemma history_where_point (r x : Reading.t) :
  history_where (Reading.machine_id r) (Reading.metric_key r)
    (Some (Reading.ts_ms r)) (Some (Reading.ts_ms r)) x
  = reading_key_eqb (Reading.key x) (Reading.key r).
Proof.
  unfold history_where, reading_key_eqb, Reading.key.
  destruct (String.eqb (Reading.machine_id x) (Reading.machine_id r)); simpl;
    [|reflexivity].
  destruct (String.eqb (Reading.metric_key x) (Reading.metric_key r)); simpl;
    [|reflexivity].
  destruct (Z.eqb_spec (Reading.ts_ms x) (Reading.ts_ms r)) as [E|E].
  - rewrite E, Z.leb_refl. reflexivity.
  - destruct (Z.leb_spec (Reading.ts_ms r) (Reading.ts_ms x)); simpl;
      [|reflexivity].
    apply Z.leb_gt. lia.
Qed.

(** X19.  What a pass writes can be read back.  On a store with unique
    keys, after a successful write of a batch, a history request for the
    machine, metric and exact [ts_ms] of any row of the batch returns one
    point: that of the row stored under the key, which is the row written
    first under it. *)
Theorem written_reading_is_served
    (eng : engine)
    (rows : list Reading.t) (conn conn' : Store) (r : Reading.t)
    (limit : option Z) (n : Z) :
  unique_keys (readings conn) ->
  write_rows eng false rows conn = Ok conn' ->
  In r rows ->
  validate_limit limit = Ok n ->
  exists stored,
    lookup_reading (Reading.key r) (readings conn') = Some stored
    /\ lookup_reading (Reading.key r) (readings conn')
       = match lookup_reading (Reading.key r) (readings conn) with
         | Some old => Some old
         | None => lookup_reading (Reading.key r) rows
         end
    /\ get_history conn' (Reading.machine_id r) (Reading.metric_key r)
         (Some (Reading.ts_ms r)) (Some (Reading.ts_ms r)) limit
       = Ok [to_ReadingPoint stored].
Proof.
  intros Hu Hw Hin Hv.
  pose proof (write_rows_unique_keys _ _ _ _ _ Hw Hu) as Hu'.
  apply write_rows_Ok_inv in Hw. destruct Hw as [_ [Hfit ->]].
  rewrite executemany_readings_readings in *.
  assert (Hb : binds (Some (Reading.ts_ms r)) && binds (Some (Reading.ts_ms r))
               = true).
  { rewrite Forall_forall in Hfit. simpl. now rewrite (Hfit r Hin). }
  assert (Hl : lookup_reading (Reading.key r)
                 (executemany Reading.key reading_key_eqb rows (readings conn))
               = match lookup_reading (Reading.key r) (readings conn) with
                 | Some old => Some old
                 | None => lookup_reading (Reading.key r) rows
                 end).
  { unfold lookup_reading.
    apply lookup_executemany. exact reading_key_eqb_eq. }
  destruct (lookup_reading (Reading.key r)
              (executemany Reading.key reading_key_eqb rows (readings conn)))
    as [stored|] eqn:E.
  - exists stored. split; [reflexivity|]. split; [exact Hl|].
    rewrite (get_history_rows _ _ _ _ _ _ n Hv Hb).
    unfold history_rows, history_matches.
    rewrite executemany_readings_readings.
    rewrite (filter_ext _ _ (history_where_point r)).
    unfold lookup_reading in E.
    rewrite (filter_unique_key Reading.key reading_key_eqb reading_key_eqb_eq
               _ _ _ Hu' E).
    apply validate_limit_range in Hv.
    destruct (Z.to_nat n) as [|n'] eqn:En; [lia|].
    change (TsDescSort.sort [stored]) with [stored]. simpl.
    now rewrite firstn_nil.
  - exfalso.
    destruct (lookup_reading (Reading.key r) (readings conn)); [discriminate|].
    apply (lookup_member Reading.key reading_key_eqb reading_key_eqb_eq r rows Hin).
    symmetry. exact Hl.
Qed.

Lemma written_reading_is_served_witness :
  let r := Reading.mk "m-002" "vibration" 7000 3.25%float in
  let written := mkStore (machines startup_store) (metrics startup_store)
                         [r] [r] in
  exists stored,
    lookup_reading (Reading.key r) (readings written) = Some stored
    /\ lookup_reading (Reading.key r) (readings written)
       = match lookup_reading (Reading.key r) (readings startup_store) with
         | Some old => Some old
         | None => lookup_reading (Reading.key r) [r]
         end
    /\ get_history written "m-002" "vibration" (Some 7000) (Some 7000) (Some 1)
       = Ok [to_ReadingPoint stored].
Proof.
  intros r written.
  apply (written_reading_is_served spec_engine [r] startup_store written r
           (Some 1) 1).
  - constructor.
  - reflexivity.
  - now left.
  - reflexivity.
Defined.

(* ================================================================= *)
(** ** More on apply_migrations *)

Lemma substring_whole (s : string) : substring 0 (String.length s) s = s.
Proof. induction s as [|c s IH]; simpl; [reflexivity | now rewrite IH]. Qed.

Lemma substring_split (s : string) :
  forall k, (k <= String.length s)%nat ->
    s = (substring 0 k s ++ substring k (String.length s - k) s)%string.
Proof.
  induction s as [|c s IH]; intros k Hk; simpl in Hk.
  - assert (k = 0%nat) by lia. subst. reflexivity.
  - destruct k as [|k].
    + simpl. now rewrite substring_whole.
    + simpl. f_equal. apply IH. lia.
Qed.

Lemma substring_suffix (p suf : string) :
  substring (String.length p) (String.length suf) (p ++ suf)%string = suf.
Proof.
  induction p as [|c p IH]; simpl; [|exact IH].
  destruct suf as [|d suf]; [reflexivity|]. simpl.
  now rewrite substring_whole.
Qed.

Lemma length_append (p q : string) :
  String.length (p ++ q)%string = (String.length p + String.length q)%nat.
Proof. induction p as [|c p IH]; simpl; [reflexivity | now rewrite IH]. Qed.

Lemma endswith_spec (suffix s : string) :
  endswith suffix s = true <-> exists stem, s = (stem ++ suffix)%string.
Proof.
  unfold endswith. rewrite andb_true_iff, Nat.leb_le, String.eqb_eq. split.
  - intros [Hle Hsub].
    exists (substring 0 (String.length s - String.length suffix) s).
    assert (Hk : (String.length s - String.length suffix <= String.length s)%nat)
      by lia.
    pose proof (substring_split s _ Hk) as H.
    replace (String.length s - (String.length s - String.length suffix))%nat
      with (String.length suffix) in H by lia.
    now rewrite Hsub in H.
  - intros [stem ->]. rewrite length_append. split; [lia|].
    replace (String.length stem + String.length suffix - String.length suffix)%nat
      with (String.length stem) by lia.
    apply substring_suffix.
Qed.

Lemma same_name_same_file (l : list MigrationFile.t) (a b : MigrationFile.t) :
  NoDup (map MigrationFile.name l) -> In a l -> In b l ->
  MigrationFile.name a = MigrationFile.name b -> a = b.
Proof.
  induction l as [|x l IH]; simpl; intros Hnd Ha Hb E; [destruct Ha|].
  inversion Hnd as [|z zs Hz Hnd']; subst.
  destruct Ha as [-> | Ha], Hb as [-> | Hb]; auto.
  - exfalso. apply Hz. rewrite E. now apply in_map.
  - exfalso. apply Hz. rewrite <- E. now apply in_map.
Qed.

(** Two sorted listings of the same files, no two of one name, are equal. *)
Lemma sorted_listing_unique (l1 : list MigrationFile.t) :
  forall l2,
    Permutation l1 l2 ->
    NoDup (map MigrationFile.name l1) ->
    StronglySorted (fun a b => is_true (PathOrder.leb a b)) l1 ->
    StronglySorted (fun a b => is_true (PathOrder.leb a b)) l2 ->
    l1 = l2.
Proof.
  induction l1 as [|a l1 IH]; intros l2 Hp Hnd S1 S2.
  - now apply Permutation_nil in Hp.
  - destruct l2 as [|b l2];
      [apply Permutation_sym, Permutation_nil in Hp; discriminate|].
    assert (Hab : a = b).
    { assert (Ha : In a (b :: l2))
        by (apply (Permutation_in _ Hp); now left).
      assert (Hb : In b (a :: l1))
        by (apply (Permutation_in _ (Permutation_sym Hp)); now left).
      destruct Ha as [Ha | Ha]; [now symmetry|].
      destruct Hb as [Hb | Hb]; [exact Hb|].
      apply StronglySorted_inv in S1, S2.
      destruct S1 as [_ F1], S2 as [_ F2].
      rewrite Forall_forall in F1, F2.
      apply (same_name_same_file (a :: l1)); [exact Hnd | now left | now right |].
      apply String.leb_antisym; [exact (F1 b Hb) | exact (F2 a Ha)]. }
    subst b. f_equal. apply IH.
    + now apply Permutation_cons_inv in Hp.
    + now inversion Hnd.
    + now apply StronglySorted_inv in S1.
    + now apply StronglySorted_inv in S2.
Qed.

Section MoreMigrationFacts.
Variable Schema : Type.
Variable executescript : string -> Schema -> result Schema.
Variable now : string -> Z.

(** X20.  A successful [apply_migrations] runs a file only if it is in
    the directory, its name ends in ".sql" and its name was not in the log
    before; and it runs no file twice. *)
Theorem apply_migrations_runs_only_new_sql_files
    (dir : list MigrationFile.t) (c c' : Db.conn Schema) (ran : list string) :
  Db.apply_migrations Schema executescript now dir c = Ok (c', ran) ->
  NoDup ran
  /\ Forall (fun v =>
               ~ In v (Db.versions Schema c)
               /\ exists mf stem,
                    In mf dir /\ MigrationFile.name mf = v
                    /\ v = (stem ++ ".sql")%string) ran.
Proof.
  unfold Db.apply_migrations, Db.versions. intros H.
  destruct (Db.migrate _ _ _ _ _ _ _) as [[[s1 t1] r1]|e] eqn:M; [|discriminate].
  inversion H; subst; clear H.
  destruct (migrate_ok _ _ _ _ _ _ _ _ _ _ M) as [E1 [_ [_ [E4 E5]]]].
  split; [exact E4|].
  apply Forall_forall. intros v Hv. split; [now apply E5|].
  rewrite E1 in Hv. apply in_map_iff in Hv. destruct Hv as [mf [En Hmf]].
  unfold Db.pending in Hmf. apply filter_In in Hmf. destruct Hmf as [Hmf _].
  apply (Permutation_in _ (Permutation_sym (PathSort.Permuted_sort _))) in Hmf.
  unfold glob_sql in Hmf. apply filter_In in Hmf. destruct Hmf as [Hin Hend].
  apply endswith_spec in Hend. destruct Hend as [stem Hstem].
  exists mf, stem. repeat split; [exact Hin | exact En | congruence].
Qed.

(** X21.  The order in which the directory lists its files does not
    matter: two listings of the same files, no two scripts of one name,
    give the same result. *)
Theorem apply_migrations_ignores_listing_order
    (dir dir' : list MigrationFile.t) (c : Db.conn Schema) :
  Permutation dir dir' ->
  NoDup (map MigrationFile.name (glob_sql dir)) ->
  Db.apply_migrations Schema executescript now dir c
  = Db.apply_migrations Schema executescript now dir' c.
Proof.
  intros Hp Hnd. unfold Db.apply_migrations.
  assert (E : PathSort.sort (glob_sql dir) = PathSort.sort (glob_sql dir')).
  { apply sorted_listing_unique.
    - rewrite <- (PathSort.Permuted_sort (glob_sql dir)).
      rewrite <- (PathSort.Permuted_sort (glob_sql dir')).
      now apply Permutation_filter.
    - eapply Permutation_NoDup; [|exact Hnd].
      apply Permutation_map, PathSort.Permuted_sort.
    - apply PathSort.StronglySorted_sort, PathOrder_transitive.
    - apply PathSort.StronglySorted_sort, PathOrder_transitive. }
  now rewrite E.
Qed.

Lemma migrate_total (applied : list string) (files : list MigrationFile.t) :
  NoDup (map MigrationFile.name files) ->
  forall sch tbl,
    (forall mf, In mf files -> In (MigrationFile.name mf) (map fst tbl) ->
       In (MigrationFile.name mf) applied) ->
    match Db.run_scripts Schema executescript (Db.pending applied files) sch with
    | Ok sch' =>
        exists tbl',
          Db.migrate Schema executescript now applied files sch tbl
          = Ok (sch', tbl', map MigrationFile.name (Db.pending applied files))
    | Raise e =>
        Db.migrate Schema executescript now applied files sch tbl = Raise e
    end.
Proof.
  induction files as [|mf rest IH]; intros Hnd sch tbl Hinv.
  - simpl. exists tbl. reflexivity.
  - inversion Hnd as [|v l Hnotin Hnd']; subst.
    unfold Db.pending. simpl. fold (Db.pending applied rest).
    destruct (existsb (String.eqb (MigrationFile.name mf)) applied) eqn:Ea; simpl.
    + apply IH; [exact Hnd'|]. intros x Hx. apply Hinv. now right.
    + unfold Db.run_script.
      destruct (MigrationFile.read_text mf) as [sql|e0]; [|reflexivity].
      destruct (executescript sql sch) as [sch1|e1]; [|reflexivity].
      destruct (existsb _ tbl) eqn:Epk.
      { apply existsb_fst_In in Epk. apply Hinv in Epk; [|now left].
        apply existsb_eqb_In in Epk. congruence. }
      specialize (IH Hnd' sch1 (tbl ++ [(MigrationFile.name mf,
                                         now (MigrationFile.name mf))])).
      assert (Hinv' : forall x, In x rest ->
                In (MigrationFile.name x)
                   (map fst (tbl ++ [(MigrationFile.name mf,
                                      now (MigrationFile.name mf))])) ->
                In (MigrationFile.name x) applied).
      { intros x Hx Hin. rewrite map_app in Hin. apply in_app_or in Hin.
        destruct Hin as [Hin | [Hin | []]].
        - apply Hinv; [now right | exact Hin].
        - simpl in Hin. exfalso. apply Hnotin. rewrite Hin. now apply in_map. }
      specialize (IH Hinv').
      destruct (Db.run_scripts Schema executescript
                  (Db.pending applied rest) sch1) as [sch'|e].
      * destruct IH as [tbl' ->]. exists tbl'. reflexivity.
      * now rewrite IH.
Qed.

Lemma run_scripts_all (files : list MigrationFile.t) :
  forall sch sch',
    Db.executescripts Schema executescript files sch = Some sch' ->
    Db.run_scripts Schema executescript files sch = Ok sch'.
Proof.
  induction files as [|mf rest IH]; intros sch sch' H; simpl in *.
  - now inversion H.
  - destruct (Db.run_script Schema executescript mf sch); [now apply IH|].
    discriminate.
Qed.

Lemma run_scripts_first_failure (pre : list MigrationFile.t) :
  forall mf post sch sch1 e,
    Db.executescripts Schema executescript pre sch = Some sch1 ->
    Db.run_script Schema executescript mf sch1 = Raise e ->
    Db.run_scripts Schema executescript (pre ++ mf :: post) sch = Raise e.
Proof.
  induction pre as [|p pre IH]; intros mf post sch sch1 e H He; simpl in *.
  - inversion H; subst. now rewrite He.
  - destruct (Db.run_script Schema executescript p sch) as [s|];
      [|discriminate].
    now apply (IH mf post s sch1 e).
Qed.

Lemma executescripts_None (files : list MigrationFile.t) :
  forall sch,
    Db.executescripts Schema executescript files sch = None ->
    exists e, Db.run_scripts Schema executescript files sch = Raise e.
Proof.
  induction files as [|mf rest IH]; intros sch H; simpl in *; [discriminate|].
  destruct (Db.run_script Schema executescript mf sch) as [s|e];
    [now apply IH | now exists e].
Qed.

(** X22.  With no two scripts of one name, [apply_migrations] succeeds
    exactly when every pending script, taken in order of name from the
    current schema, can be read and runs through; the schema it leaves is
    the one they produce.  When the scripts before one run through and that
    one cannot be read or fails, [apply_migrations] raises the exception
    that reading or running it raised. *)
Theorem apply_migrations_succeeds_iff_scripts_run
    (dir : list MigrationFile.t) (c : Db.conn Schema) :
  NoDup (map MigrationFile.name (glob_sql dir)) ->
  let todo := Db.pending (Db.versions Schema c) (PathSort.sort (glob_sql dir)) in
  (forall sch',
     Db.executescripts Schema executescript todo (Db.schema Schema c) = Some sch' ->
     exists tbl',
       Db.apply_migrations Schema executescript now dir c
       = Ok (Db.mkConn Schema sch' (Some tbl'), map MigrationFile.name todo))
  /\ (forall pre mf post sch1 e,
        todo = pre ++ mf :: post ->
        Db.executescripts Schema executescript pre (Db.schema Schema c)
          = Some sch1 ->
        Db.run_script Schema executescript mf sch1 = Raise e ->
        Db.apply_migrations Schema executescript now dir c = Raise e)
  /\ (Db.executescripts Schema executescript todo (Db.schema Schema c) = None ->
      exists e, Db.apply_migrations Schema executescript now dir c = Raise e).
Proof.
  intros Hnd. simpl. unfold Db.apply_migrations, Db.versions.
  set (tbl := Db.create_schema_migrations Schema c).
  set (files := PathSort.sort (glob_sql dir)).
  assert (Hnd' : NoDup (map MigrationFile.name files)).
  { eapply Permutation_NoDup; [|exact Hnd].
    apply Permutation_map, PathSort.Permuted_sort. }
  pose proof (migrate_total (map fst tbl) files Hnd' (Db.schema Schema c) tbl
                (fun mf _ H => H)) as H.
  split; [|split].
  - intros sch' Hall. rewrite (run_scripts_all _ _ _ Hall) in H.
    destruct H as [tbl' ->]. exists tbl'. reflexivity.
  - intros pre mf post sch1 e Hsplit Hpre He.
    rewrite Hsplit, (run_scripts_first_failure _ _ _ _ _ _ Hpre He) in H.
    now rewrite H.
  - intros Hnone. apply executescripts_None in Hnone. destruct Hnone as [e He].
    rewrite He in H. exists e. now rewrite H.
Qed.
End MoreMigrationFacts.

Lemma example_dir_names_distinct :
  NoDup (map MigrationFile.name (glob_sql example_dir)).
Proof.
  change (NoDup ["003_indexes.sql"; "001_init.sql"; "002_readings.sql"]).
  repeat constructor; simpl; intuition discriminate.
Qed.

Lemma apply_migrations_runs_only_new_sql_files_witness :
  NoDup ["002_readings.sql"; "003_indexes.sql"]
  /\ Forall (fun v =>
               ~ In v (Db.versions (list string) example_conn)
               /\ exists mf stem,
                    In mf example_dir /\ MigrationFile.name mf = v
                    /\ v = (stem ++ ".sql")%string)
            ["002_readings.sql"; "003_indexes.sql"].
Proof.
  exact (apply_migrations_runs_only_new_sql_files (list string)
           example_executescript (fun _ => 200) example_dir example_conn
           _ _ eq_refl).
Defined.

Lemma apply_migrations_ignores_listing_order_witness :
  Db.apply_migrations (list string) example_executescript (fun _ => 200)
    example_dir example_conn
  = Db.apply_migrations (list string) example_executescript (fun _ => 200)
      (rev example_dir) example_conn.
Proof.
  apply apply_migrations_ignores_listing_order.
  - apply Permutation_rev.
  - exact example_dir_names_distinct.
Defined.

(** A directory whose second script violates a constraint. *)
Lemma apply_migrations_succeeds_iff_scripts_run_witness :
  let failing sql (sch : list string) :=
    if String.eqb sql "CREATE readings" then Raise IntegrityError
    else Ok (sch ++ [sql]) in
  (exists tbl',
     Db.apply_migrations (list string) example_executescript (fun _ => 200)
       example_dir example_conn
     = Ok (Db.mkConn (list string)
             ["CREATE machines, metrics"; "CREATE readings";
              "CREATE INDEX readings_ts"] (Some tbl'),
           ["002_readings.sql"; "003_indexes.sql"]))
  /\ Db.apply_migrations (list string) failing (fun _ => 200)
       example_dir example_conn
     = Raise IntegrityError.
Proof.
  intros failing. split.
  - exact (proj1 (apply_migrations_succeeds_iff_scripts_run (list string)
                    example_executescript (fun _ => 200) example_dir
                    example_conn example_dir_names_distinct)
                 _ eq_refl).
  - exact (proj1 (proj2 (apply_migrations_succeeds_iff_scripts_run
                           (list string) failing (fun _ => 200) example_dir
                           example_conn example_dir_names_distinct))
                 [] (MigrationFile.mk "002_readings.sql" (Ok "CREATE readings"))
                 [MigrationFile.mk "003_indexes.sql" (Ok "CREATE INDEX readings_ts")]
                 _ IntegrityError eq_refl eq_refl eq_refl).
Defined.

(** A script that cannot be read stops start-up with the exception of the
    read. *)
Example apply_migrations_unreadable_script :
  Db.apply_migrations (list string) example_executescript (fun _ => 200)
    [ MigrationFile.mk "002_dir.sql" (Raise (OtherError "IsADirectoryError")) ]
    example_conn
  = Raise (OtherError "IsADirectoryError").
Proof. reflexivity. Qed.

(* ================================================================= *)
(** ** Raising the limit of a history request *)

(** X23.  Raising the limit only adds older points in front: the answer
    for a limit is the tail end of the answer to the same request with any
    larger valid limit. *)
Theorem get_history_larger_limit_extends_front
    (conn : Store) (machine_id metric_key : string)
    (start_ms end_ms : option Z) (n n' : Z) (points : list ReadingPoint.t) :
  1 <= n <= n' -> n' <= 5000 ->
  get_history conn machine_id metric_key start_ms end_ms (Some n) = Ok points ->
  exists older,
    get_history conn machine_id metric_key start_ms end_ms (Some n')
    = Ok (older ++ points)
    /\ Forall (fun p => Forall (fun q => ReadingPoint.ts_ms p <= ReadingPoint.ts_ms q)
                          points) older.
Proof.
  intros Hn Hn' Hget.
  assert (Hv : validate_limit (Some n) = Ok n) by (apply validate_limit_in_range; lia).
  assert (Hv' : validate_limit (Some n') = Ok n')
    by (apply validate_limit_in_range; lia).
  destruct (get_history_Ok_inv _ _ _ _ _ _ _ Hget) as [_ [_ Hb]].
  rewrite (get_history_rows _ _ _ _ _ _ _ Hv Hb) in Hget.
  inversion Hget; subst; clear Hget.
  rewrite (get_history_rows _ _ _ _ _ _ _ Hv' Hb). unfold history_rows.
  set (sorted := TsDescSort.sort
                   (history_matches conn machine_id metric_key start_ms end_ms)).
  assert (Hsplit : firstn (Z.to_nat n') sorted
                   = firstn (Z.to_nat n) sorted
                     ++ skipn (Z.to_nat n) (firstn (Z.to_nat n') sorted)).
  { rewrite <- (firstn_skipn (Z.to_nat n) (firstn (Z.to_nat n') sorted)) at 1.
    rewrite firstn_firstn. f_equal. f_equal. lia. }
  exists (map to_ReadingPoint
            (rev (skipn (Z.to_nat n) (firstn (Z.to_nat n') sorted)))).
  split.
  - rewrite Hsplit at 1. rewrite rev_app_distr, map_app. reflexivity.
  - assert (Hs : StronglySorted (fun a b => is_true (TsDescOrder.leb a b))
                   (firstn (Z.to_nat n') sorted)).
    { assert (H : StronglySorted (fun a b => is_true (TsDescOrder.leb a b)) sorted)
        by (apply TsDescSort.StronglySorted_sort, TsDesc_transitive).
      rewrite <- (firstn_skipn (Z.to_nat n') sorted) in H.
      now apply StronglySorted_app_inv in H. }
    rewrite Hsplit in Hs. apply StronglySorted_app_inv in Hs.
    destruct Hs as [_ [_ F]]. rewrite Forall_forall in F.
    apply Forall_forall. intros p Hp. apply Forall_forall. intros q Hq.
    apply in_map_iff in Hp, Hq.
    destruct Hp as [x [<- Hx]], Hq as [y [<- Hy]].
    apply in_rev in Hx, Hy. specialize (F y Hy).
    rewrite Forall_forall in F. specialize (F x Hx).
    unfold TsDescOrder.leb, is_true in F. apply Z.leb_le in F. exact F.
Qed.

Lemma get_history_larger_limit_extends_front_witness :
  exists older,
    get_history example_store "m-001" "temperature" None None (Some 4)
    = Ok (older ++ [ ReadingPoint.mk 4000 71.5%float;
                     ReadingPoint.mk 5000 72.5%float ])
    /\ Forall (fun p =>
                 Forall (fun q => ReadingPoint.ts_ms p <= ReadingPoint.ts_ms q)
                   [ ReadingPoint.mk 4000 71.5%float;
                     ReadingPoint.mk 5000 72.5%float ]) older.
Proof.
  apply (get_history_larger_limit_extends_front example_store "m-001"
           "temperature" None None 2 4); [lia | lia |].
  vm_compute. reflexivity.
Defined.
